(** * Static semantics of millet: a shallow embedding of the checker state,
    the symbol table, the deferred match obligations and parts of the
    declaration checker. *)

From Stdlib Require Import Bool Arith ZArith Lia List String Ascii Sorting.Sorted Sorting.Permutation.
Import ListNotations.
Set Warnings "-register-all".
Abbreviation length := List.length.
Open Scope string_scope.
Open Scope list_scope.

(** ** Data model of [statics/src/types.rs] *)

(** [hir::Name] *)
Definition Name := string.

(** [hir::Lab]: a record label, a name or a number. *)
Inductive Lab : Type :=
| Lab_Name (n : Name)
| Lab_Num (n : nat).

Definition Lab_eqb (a b : Lab) : bool :=
  match a, b with
  | Lab_Name x, Lab_Name y => String.eqb x y
  | Lab_Num x, Lab_Num y => Nat.eqb x y
  | _, _ => false
  end.

(** Definition: TyName. [pub(crate) struct Sym(usize)] *)
Record Sym : Type := mkSym { sym_idx : nat }.

Definition Sym_eqb (a b : Sym) : bool := Nat.eqb (sym_idx a) (sym_idx b).

(** The built-in symbols, in the order of [impl Default for Syms]. *)
Definition Sym_BOOL := mkSym 0.
Definition Sym_CHAR := mkSym 1.
Definition Sym_INT := mkSym 2.
Definition Sym_REAL := mkSym 3.
Definition Sym_STRING := mkSym 4.
Definition Sym_WORD := mkSym 5.
Definition Sym_EXN := mkSym 6.
Definition Sym_REF := mkSym 7.
Definition Sym_LIST := mkSym 8.
Definition Sym_ORDER := mkSym 9.

(** [MetaTyVar { id: Uniq, equality: bool }] *)
Record MetaTyVar : Type := mkMetaTyVar { mv_id : nat; mv_equality : bool }.

(** [BoundTyVar(usize)], a de Bruijn index. *)
Definition BoundTyVar := nat.

(** Definition: Type. [Record] holds a [BTreeMap<hir::Lab, Ty>], written as
    its list of entries. *)
Inductive Ty : Type :=
| Ty_None
| Ty_BoundVar (v : BoundTyVar)
| Ty_MetaVar (mv : MetaTyVar)
| Ty_Record (rows : list (Lab * Ty))
| Ty_Con (args : list Ty) (sym : Sym)
| Ty_Fn (param : Ty) (res : Ty).

(** [Ty::zero] *)
Definition Ty_zero (sym : Sym) : Ty := Ty_Con [] sym.

(** [TyVars { inner: Vec<bool> }] *)
Definition TyVars := list bool.

(** Definition: TypeScheme, TypeFcn *)
Record TyScheme : Type := mkTyScheme { ts_vars : TyVars; ts_ty : Ty }.

Definition TyScheme_mono (ty : Ty) : TyScheme := mkTyScheme [] ty.

(** Definition: IdStatus *)
Inductive IdStatus : Type := IdStatus_Con | IdStatus_Exn | IdStatus_Val.

Record ValInfo : Type := mkValInfo { vi_ty_scheme : TyScheme; vi_id_status : IdStatus }.

(** Definition: ValEnv, a [FxHashMap<hir::Name, ValInfo>] as its entries. *)
Definition ValEnv := list (Name * ValInfo).

Fixpoint assoc_get {A : Type} (k : Name) (m : list (Name * A)) : option A :=
  match m with
  | [] => None
  | (k', v) :: m' => if String.eqb k k' then Some v else assoc_get k m'
  end.

(** Definition: TyStr *)
Record TyInfo : Type := mkTyInfo {
  ti_name : Name;
  ti_ty_scheme : TyScheme;
  ti_val_env : ValEnv
}.

(** [fn datatype(name, ty_scheme, ctors) -> TyInfo]. The collected
    [FxHashMap] is kept as the entry list in constructor order; the two
    agree when the constructor names are distinct, as in every call
    ([Syms::default]); with a repeated name the hash map would keep the
    last entry, while [assoc_get] finds the first. *)
Definition datatype (name : Name) (ty_scheme : TyScheme)
    (ctors : list (Name * option Ty)) : TyInfo :=
  let val_env :=
    map (fun '(cname, arg) =>
      let ts :=
        match arg with
        | None => ty_scheme
        | Some a => mkTyScheme (ts_vars ty_scheme) (Ty_Fn a (ts_ty ty_scheme))
        end in
      (cname, mkValInfo ts IdStatus_Con)) ctors in
  mkTyInfo name ty_scheme val_env.

(** A mapping from [Sym]s to [TyInfo]s: [Syms { store: Vec<TyInfo> }]. *)
Record Syms : Type := mkSyms { store : list TyInfo }.

(** [impl Default for Syms] *)
Definition Syms_default : Syms :=
  let z := fun s => TyScheme_mono (Ty_zero s) in
  let one := fun s => mkTyScheme [false] (Ty_Con [] s) in
  let bv := Ty_BoundVar 0 in
  mkSyms [
    datatype "bool" (z Sym_BOOL) [("true", None); ("false", None)];
    datatype "char" (z Sym_CHAR) [];
    datatype "int" (z Sym_INT) [];
    datatype "real" (z Sym_REAL) [];
    datatype "string" (z Sym_STRING) [];
    datatype "word" (z Sym_WORD) [];
    datatype "exn" (z Sym_EXN) [];
    datatype "ref" (one Sym_REF) [("ref", Some bv)];
    datatype "list" (one Sym_LIST) [("nil", None); ("::", Some bv)];
    datatype "order" (z Sym_ORDER) [("LESS", None); ("EQUAL", None); ("GREATER", None)]
  ].

(** [Syms::insert]: the new symbol is the current length of the store, then
    the info is pushed. *)
Definition Syms_insert (syms : Syms) (ty_info : TyInfo) : Syms * Sym :=
  let ret := mkSym (length (store syms)) in
  (mkSyms (store syms ++ [ty_info]), ret).

(** [Syms::get]: [self.store.get(sym.0).unwrap()]; [None] is the panic. *)
Definition Syms_get (syms : Syms) (sym : Sym) : option TyInfo :=
  nth_error (store syms) (sym_idx sym).

(** A run of [Syms::insert] calls on one table, returning the minted symbols
    in call order. *)
Fixpoint Syms_insert_all (syms : Syms) (infos : list TyInfo) : Syms * list Sym :=
  match infos with
  | [] => (syms, [])
  | ti :: rest =>
      let '(syms1, sym) := Syms_insert syms ti in
      let '(syms2, out) := Syms_insert_all syms1 rest in
      (syms2, sym :: out)
  end.

(** A nested induction principle for [Ty]. *)
Section TyInd.
Variable P : Ty -> Prop.
Hypothesis H_None : P Ty_None.
Hypothesis H_BoundVar : forall v, P (Ty_BoundVar v).
Hypothesis H_MetaVar : forall mv, P (Ty_MetaVar mv).
Hypothesis H_Record : forall rows, Forall (fun r => P (snd r)) rows -> P (Ty_Record rows).
Hypothesis H_Con : forall args sym, Forall P args -> P (Ty_Con args sym).
Hypothesis H_Fn : forall p r, P p -> P r -> P (Ty_Fn p r).

Fixpoint Ty_ind' (t : Ty) : P t :=
  match t with
  | Ty_None => H_None
  | Ty_BoundVar v => H_BoundVar v
  | Ty_MetaVar mv => H_MetaVar mv
  | Ty_Record rows =>
      H_Record rows
        ((fix go (rs : list (Lab * Ty)) : Forall (fun r => P (snd r)) rs :=
            match rs with
            | [] => Forall_nil _
            | r :: rs' => Forall_cons r (Ty_ind' (snd r)) (go rs')
            end) rows)
  | Ty_Con args sym =>
      H_Con args sym
        ((fix go (ts : list Ty) : Forall P ts :=
            match ts with
            | [] => Forall_nil _
            | t' :: ts' => Forall_cons t' (Ty_ind' t') (go ts')
            end) args)
  | Ty_Fn p r => H_Fn p r (Ty_ind' p) (Ty_ind' r)
  end.
End TyInd.

(** ** Substitution and unification

    [Subst], [apply] and [unify] live in files of the repository that are not
    among the sources read here ([types.rs] and [unify.rs] of the
    [sml-statics] crate); their callers are ([St::finish] applies the final
    substitution, [pat::get] and [ty::get] call [unify] and [apply]). *)

(** Modelled from the spec: [SubstEntry] (not among the sources): a meta
    variable is either resolved to a type or not yet resolved. *)
Inductive SubstEntry : Type :=
| Solved (t : Ty)
| Unresolved.

(** Modelled from the spec: [Subst], a monotonically growing mapping from
    meta variables (by id) to entries. *)
Definition Subst := list (nat * SubstEntry).

Fixpoint subst_get (s : Subst) (id : nat) : option SubstEntry :=
  match s with
  | [] => None
  | (k, e) :: s' => if Nat.eqb id k then Some e else subst_get s' id
  end.

(** Mapping a fallible function over a list, failing when one call fails. *)
Definition map_opt {A B : Type} (f : A -> option B) : list A -> option (list B) :=
  fix go (l : list A) : option (list B) :=
    match l with
    | [] => Some []
    | x :: l' =>
        match f x, go l' with
        | Some y, Some l'' => Some (y :: l'')
        | _, _ => None
        end
    end.

(** Modelled from the spec: [apply(subst, ty)], "a recursive walk" that
    replaces each resolved meta variable by its type, itself walked again.
    The walk does not terminate on a cyclic substitution; [fuel] bounds the
    depth of resolution chains and [None] stands for that divergence. *)
Fixpoint apply (fuel : nat) (s : Subst) (ty : Ty) : option Ty :=
  match fuel with
  | 0 => None
  | S f =>
      let fix go (t : Ty) : option Ty :=
        match t with
        | Ty_None => Some Ty_None
        | Ty_BoundVar v => Some (Ty_BoundVar v)
        | Ty_MetaVar mv =>
            match subst_get s (mv_id mv) with
            | Some (Solved t') => apply f s t'
            | _ => Some (Ty_MetaVar mv)
            end
        | Ty_Record rows =>
            option_map Ty_Record
              (map_opt (fun r => option_map (pair (fst r)) (go (snd r))) rows)
        | Ty_Con args sym =>
            option_map (fun args' => Ty_Con args' sym) (map_opt go args)
        | Ty_Fn p r =>
            match go p, go r with
            | Some p', Some r' => Some (Ty_Fn p' r')
            | _, _ => None
            end
        end
      in go ty
  end.

(** A type is fully resolved under [s] when none of its meta variables is
    resolved in [s]. *)
Fixpoint resolved (s : Subst) (t : Ty) : bool :=
  match t with
  | Ty_None | Ty_BoundVar _ => true
  | Ty_MetaVar mv =>
      match subst_get s (mv_id mv) with
      | Some (Solved _) => false
      | _ => true
      end
  | Ty_Record rows => forallb (fun r => resolved s (snd r)) rows
  | Ty_Con args _ => forallb (resolved s) args
  | Ty_Fn p r => resolved s p && resolved s r
  end.

(** Modelled from the spec: the unifier's errors. *)
Inductive UnifyError : Type :=
| UE_Circularity (mv : MetaTyVar) (t : Ty)
| UE_NotEqTy (t : Ty)
| UE_MissingRow (lab : Lab)
| UE_WrongNumArgs (want got : nat)
| UE_Incompatible (want got : Ty).

Fixpoint occurs (mv : MetaTyVar) (t : Ty) : bool :=
  match t with
  | Ty_None | Ty_BoundVar _ => false
  | Ty_MetaVar mv' => Nat.eqb (mv_id mv) (mv_id mv')
  | Ty_Record rows => existsb (fun r => occurs mv (snd r)) rows
  | Ty_Con args _ => existsb (occurs mv) args
  | Ty_Fn p r => occurs mv p || occurs mv r
  end.

(** Modelled from the spec: whether a type supports equality; functions
    and [real] do not, [ref] always does. *)
Fixpoint admits_eq (t : Ty) : bool :=
  match t with
  | Ty_None | Ty_BoundVar _ | Ty_MetaVar _ => true
  | Ty_Record rows => forallb (fun r => admits_eq (snd r)) rows
  | Ty_Con args sym =>
      if Sym_eqb sym Sym_REAL then false
      else if Sym_eqb sym Sym_REF then true
      else forallb admits_eq args
  | Ty_Fn _ _ => false
  end.

(** Modelled from the spec: binding a meta variable, with the occurs check
    and the equality check. *)
Definition bind (s : Subst) (mv : MetaTyVar) (t : Ty) : Subst + UnifyError :=
  if occurs mv t then inr (UE_Circularity mv t)
  else if mv_equality mv && negb (admits_eq t) then inr (UE_NotEqTy t)
  else inl ((mv_id mv, Solved t) :: s).

Definition lab_mem (l : Lab) (ls : list Lab) : bool :=
  existsb (Lab_eqb l) ls.

(** The first label present on only one side of two rows, if any. *)
Definition missing_lab (r1 r2 : list (Lab * Ty)) : option Lab :=
  let l1 := map fst r1 in
  let l2 := map fst r2 in
  match find (fun l => negb (lab_mem l l2)) l1 with
  | Some l => Some l
  | None => find (fun l => negb (lab_mem l l1)) l2
  end.

(** Modelled from the spec (section 4.2): [unify(expected, actual)].
    Both sides are first resolved through the substitution; [None] stands
    for running out of [fuel]. *)
Fixpoint unify (fuel : nat) (s : Subst) (want got : Ty) : option (Subst + UnifyError) :=
  match fuel with
  | 0 => None
  | S f =>
      let fix unify_list (s : Subst) (ws gs : list Ty) : option (Subst + UnifyError) :=
        match ws, gs with
        | w :: ws', g :: gs' =>
            match unify f s w g with
            | Some (inl s') => unify_list s' ws' gs'
            | other => other
            end
        | _, _ => Some (inl s)
        end in
      match apply fuel s want, apply fuel s got with
      | Some w, Some g =>
          match w, g with
          | Ty_None, _ | _, Ty_None => Some (inl s)
          | Ty_MetaVar a, Ty_MetaVar b =>
              if Nat.eqb (mv_id a) (mv_id b) then Some (inl s) else Some (bind s a g)
          | Ty_MetaVar a, _ => Some (bind s a g)
          | _, Ty_MetaVar b => Some (bind s b w)
          | Ty_BoundVar a, Ty_BoundVar b =>
              if Nat.eqb a b then Some (inl s) else Some (inr (UE_Incompatible w g))
          | Ty_Record r1, Ty_Record r2 =>
              match missing_lab r1 r2 with
              | Some l => Some (inr (UE_MissingRow l))
              | None => unify_list s (map snd r1) (map snd r2)
              end
          | Ty_Con a1 s1, Ty_Con a2 s2 =>
              if Sym_eqb s1 s2 then
                if Nat.eqb (length a1) (length a2) then unify_list s a1 a2
                else Some (inr (UE_WrongNumArgs (length a1) (length a2)))
              else Some (inr (UE_Incompatible w g))
          | Ty_Fn p1 r1, Ty_Fn p2 r2 => unify_list s [p1; r1] [p2; r2]
          | _, _ => Some (inr (UE_Incompatible w g))
          end
      | _, _ => None
      end
  end.

(** ** The checking state of [sml-statics/src/st.rs] *)

(** [sml_hir::Idx]: an index into one of the HIR arenas. *)
Inductive Idx : Type :=
| Idx_Exp (i : nat)
| Idx_Pat (i : nat)
| Idx_Ty (i : nat)
| Idx_Dec (i : nat)
| Idx_StrDec (i : nat).

(** [pat_match::Con], as [statics/src/pat.rs] builds it. *)
Inductive Con : Type :=
| Con_Any
| Con_Int (i : Z)
| Con_Word (w : nat)
| Con_Char (c : nat)
| Con_String (s : string)
| Con_Variant (sym : Sym) (name : Name)
| Con_Record (labs : list Lab).

(** [pat_match::Pat]: a constructor applied to sub-patterns, tagged with the
    raw index of the HIR pattern it comes from ([None] for a pattern made by
    the checker itself, such as a missing witness). *)
Inductive Pat : Type :=
| mkPat (con : Con) (args : list Pat) (idx : option nat).

(** [Pat::zero] and [Pat::con] *)
Definition Pat_zero (con : Con) (idx : nat) : Pat := mkPat con [] (Some idx).
Definition Pat_con (con : Con) (args : list Pat) (idx : nat) : Pat := mkPat con args (Some idx).

Inductive ErrorKind : Type :=
| EK_ExpHole (t : Ty)
| EK_NonExhaustiveBinding (missing : list Pat)
| EK_NonExhaustiveCase (missing : list Pat)
| EK_UnreachablePattern
| EK_Other (what : string).

Record Error : Type := mkError { err_idx : Idx; err_kind : ErrorKind }.

Inductive MatchKind : Type :=
| MK_Bind (pat : Pat)
| MK_Case (pats : list Pat)
| MK_Handle (pats : list Pat).

Record Match : Type := mkMatch { m_kind : MatchKind; m_want : Ty; m_idx : Idx }.

(** [Info]: the per-node metadata; [finish] touches its types and its
    meta variable information. *)
Record Info : Type := mkInfo { info_tys : list Ty; info_meta_vars : Subst }.

Record St : Type := mkSt {
  st_subst : Subst;
  st_errors : list Error;
  st_meta_gen : nat;
  st_fixed_gen : nat;
  st_info : Info;
  st_matches : list Match;
  st_holes : list (MetaTyVar * Idx);
  st_syms : Syms
}.

(** [pat_match::Lang] *)
Record Lang : Type := mkLang { lang_syms : Syms }.

(** The result of [pattern_match::check]. *)
Record Check : Type := mkCheck {
  ck_unreachable : list (option nat);
  ck_missing : list Pat
}.

Definition St_err (st : St) (idx : Idx) (kind : ErrorKind) : St :=
  {| st_subst := st_subst st; st_errors := st_errors st ++ [mkError idx kind];
     st_meta_gen := st_meta_gen st; st_fixed_gen := st_fixed_gen st;
     st_info := st_info st; st_matches := st_matches st; st_holes := st_holes st;
     st_syms := st_syms st |}.

Definition St_push_match (st : St) (m : Match) : St :=
  {| st_subst := st_subst st; st_errors := st_errors st;
     st_meta_gen := st_meta_gen st; st_fixed_gen := st_fixed_gen st;
     st_info := st_info st; st_matches := st_matches st ++ [m]; st_holes := st_holes st;
     st_syms := st_syms st |}.

(** [St::insert_bind], [St::insert_handle], [St::insert_case] *)
Definition St_insert_bind (st : St) (pat : Pat) (want : Ty) (idx : Idx) : St :=
  St_push_match st (mkMatch (MK_Bind pat) want idx).
Definition St_insert_handle (st : St) (pats : list Pat) (want : Ty) (idx : Idx) : St :=
  St_push_match st (mkMatch (MK_Handle pats) want idx).
Definition St_insert_case (st : St) (pats : list Pat) (want : Ty) (idx : Idx) : St :=
  St_push_match st (mkMatch (MK_Case pats) want idx).

(** [sort_unstable_by_key(|x| x.into_raw())] on the raw pattern indices. *)
Fixpoint insert_sorted (x : nat) (xs : list nat) : list nat :=
  match xs with
  | [] => [x]
  | y :: ys => if Nat.leb x y then x :: y :: ys else y :: insert_sorted x ys
  end.

Fixpoint sort_by_raw (xs : list nat) : list nat :=
  match xs with
  | [] => []
  | x :: xs' => insert_sorted x (sort_by_raw xs')
  end.

(** [into_iter().flatten()] on a collection of [Option<PatIdx>]. *)
Fixpoint flatten_opt (xs : list (option nat)) : list nat :=
  match xs with
  | [] => []
  | Some x :: xs' => x :: flatten_opt xs'
  | None :: xs' => flatten_opt xs'
  end.

Section Finish.
(** [apply] and [pattern_match::check] are called here; they are
    parameters of this section ([None] from [check] is its [Err]). *)
Variable apply_ty : Subst -> Ty -> Ty.
Variable check : Lang -> list Pat -> Ty -> option Check.

(** [fn get_match(errors, lang, pats, ty) -> Vec<Pat>]: the updated error
    vector and the missing patterns. *)
Definition get_match (errors : list Error) (lang : Lang) (pats : list Pat) (ty : Ty)
    : list Error * list Pat :=
  match check lang pats ty with
  | None => (errors, [])
  | Some ck =>
      let unreachable := sort_by_raw (flatten_opt (ck_unreachable ck)) in
      (errors ++ map (fun i => mkError (Idx_Pat i) EK_UnreachablePattern) unreachable,
       ck_missing ck)
  end.

(** One turn of the [for mut m in self.matches] loop of [St::finish]. *)
Definition finish_match (lang : Lang) (subst : Subst) (errors : list Error) (m : Match)
    : list Error :=
  let want := apply_ty subst (m_want m) in
  match m_kind m with
  | MK_Bind pat =>
      let '(errors', missing) := get_match errors lang [pat] want in
      match missing with
      | [] => errors'
      | _ => errors' ++ [mkError (m_idx m) (EK_NonExhaustiveBinding missing)]
      end
  | MK_Case pats =>
      let '(errors', missing) := get_match errors lang pats want in
      match missing with
      | [] => errors'
      | _ => errors' ++ [mkError (m_idx m) (EK_NonExhaustiveCase missing)]
      end
  | MK_Handle pats =>
      fst (get_match errors lang pats want)
  end.

(** [St::finish]: holes first, then the deferred matches in order, then
    the substitution applied to every recorded type. *)
Definition finish (st : St) : Syms * list Error * Info :=
  let lang := mkLang (st_syms st) in
  let subst := st_subst st in
  let errors :=
    fold_left (fun errs '(mv, idx) =>
      errs ++ [mkError idx (EK_ExpHole (apply_ty subst (Ty_MetaVar mv)))])
      (st_holes st) (st_errors st) in
  let errors := fold_left (finish_match lang subst) (st_matches st) errors in
  let info := mkInfo (map (apply_ty subst) (info_tys (st_info st))) subst in
  (lang_syms lang, errors, info).
End Finish.

(** ** The exhaustiveness checker

    [pattern_match::check] lives in a crate of the repository that is not
    among the sources read here; [get_match] calls it. *)

Definition Con_eqb (a b : Con) : bool :=
  match a, b with
  | Con_Any, Con_Any => true
  | Con_Int x, Con_Int y => Z.eqb x y
  | Con_Word x, Con_Word y => Nat.eqb x y
  | Con_Char x, Con_Char y => Nat.eqb x y
  | Con_String x, Con_String y => String.eqb x y
  | Con_Variant s x, Con_Variant t y => Sym_eqb s t && String.eqb x y
  | Con_Record xs, Con_Record ys =>
      (fix go (xs ys : list Lab) : bool :=
         match xs, ys with
         | [], [] => true
         | x :: xs', y :: ys' => Lab_eqb x y && go xs' ys'
         | _, _ => false
         end) xs ys
  | _, _ => false
  end.

Definition Pat_con_of (p : Pat) : Con := let '(mkPat c _ _) := p in c.
Definition Pat_args (p : Pat) : list Pat := let '(mkPat _ a _) := p in a.
Definition Pat_idx (p : Pat) : option nat := let '(mkPat _ _ i) := p in i.

(** A wildcard made by the checker. *)
Definition Pat_any : Pat := mkPat Con_Any [] None.

(** The arity of a value constructor: one when its type is a function. *)
Definition ctor_arity (vi : ValInfo) : nat :=
  match ts_ty (vi_ty_scheme vi) with
  | Ty_Fn _ _ => 1
  | _ => 0
  end.

(** Modelled from the spec: the constructor family of a constructor, read
    from the symbol table: [Some] lists a finite family with the arities,
    [None] is an open family (literals, and a type with no recorded
    constructors such as [exn]). *)
Definition family (syms : Syms) (c : Con) : option (list (Con * nat)) :=
  match c with
  | Con_Variant sym _ =>
      match Syms_get syms sym with
      | Some ti =>
          match ti_val_env ti with
          | [] => None
          | ve => Some (map (fun '(n, vi) => (Con_Variant sym n, ctor_arity vi)) ve)
          end
      | None => None
      end
  | Con_Record labs => Some [(Con_Record labs, length labs)]
  | _ => None
  end.

(** Whether a constructor is known: a variant must name a constructor of a
    type in the table. *)
Definition con_known (syms : Syms) (c : Con) : bool :=
  match c with
  | Con_Variant sym n =>
      match Syms_get syms sym with
      | Some ti => match assoc_get n (ti_val_env ti) with Some _ => true | None => false end
      | None => false
      end
  | _ => true
  end.

Fixpoint pat_known (syms : Syms) (p : Pat) : bool :=
  match p with
  | mkPat c args _ =>
      con_known syms c &&
      (fix go (l : list Pat) : bool :=
         match l with [] => true | a :: l' => pat_known syms a && go l' end) args
  end.

Definition pats_known (syms : Syms) (ps : list Pat) : bool := forallb (pat_known syms) ps.

(** The non-wildcard head constructors of the first column. *)
Definition heads (rows : list (list Pat)) : list Con :=
  flat_map (fun r => match r with
                     | mkPat c _ _ :: _ => if Con_eqb c Con_Any then [] else [c]
                     | [] => []
                     end) rows.

(** Specialization by constructor [c] of arity [a]. *)
Definition specialize (c : Con) (a : nat) (rows : list (list Pat)) : list (list Pat) :=
  flat_map (fun r => match r with
                     | mkPat c' args _ :: rest =>
                         if Con_eqb c' Con_Any then [repeat Pat_any a ++ rest]
                         else if Con_eqb c' c then [args ++ rest] else []
                     | [] => []
                     end) rows.

(** The default matrix: rows whose head is a wildcard. *)
Definition default_rows (rows : list (list Pat)) : list (list Pat) :=
  flat_map (fun r => match r with
                     | mkPat c _ _ :: rest => if Con_eqb c Con_Any then [rest] else []
                     | [] => []
                     end) rows.

Definition con_mem (c : Con) (cs : list Con) : bool := existsb (Con_eqb c) cs.

(** Whether the head constructors cover a finite family. *)
Definition complete (hs : list Con) (fam : list (Con * nat)) : bool :=
  forallb (fun ca => con_mem (fst ca) hs) fam.

Fixpoint opt_all {A : Type} (xs : list (option A)) : option (list A) :=
  match xs with
  | [] => Some []
  | Some x :: xs' => option_map (cons x) (opt_all xs')
  | None :: _ => None
  end.

Section PatMatch.
Variable syms : Syms.

(** Modelled from the spec: whether the vector [q] matches a value that
    no row of the matrix matches (usefulness); [None] when [fuel] runs
    out. *)
Fixpoint useful (fuel : nat) (rows : list (list Pat)) (q : list Pat) : option bool :=
  match fuel with
  | 0 => None
  | S f =>
      match q with
      | [] => Some (match rows with [] => true | _ => false end)
      | mkPat c args _ :: qs =>
          if Con_eqb c Con_Any then
            let hs := heads rows in
            match hs with
            | [] => useful f (default_rows rows) qs
            | h :: _ =>
                match family syms h with
                | Some fam =>
                    if complete hs fam then
                      option_map (existsb id)
                        (opt_all (map (fun '(c', a) =>
                           useful f (specialize c' a rows) (repeat Pat_any a ++ qs)) fam))
                    else useful f (default_rows rows) qs
                | None => useful f (default_rows rows) qs
                end
            end
          else useful f (specialize c (length args) rows) (args ++ qs)
      end
  end.

(** Modelled from the spec: the vectors of [n] patterns that no row of
    the matrix covers, in construction order over the family. *)
Fixpoint missing (fuel : nat) (rows : list (list Pat)) (n : nat) : option (list (list Pat)) :=
  match fuel with
  | 0 => None
  | S f =>
      match n with
      | 0 => Some (match rows with [] => [[]] | _ => [] end)
      | S n' =>
          let hs := heads rows in
          let via_default :=
            option_map (map (cons Pat_any)) (missing f (default_rows rows) n') in
          match hs with
          | [] => via_default
          | h :: _ =>
              match family syms h with
              | Some fam =>
                  if complete hs fam then
                    option_map (@List.concat (list Pat))
                      (opt_all (map (fun '(c', a) =>
                         option_map
                           (map (fun w => mkPat c' (firstn a w) None :: skipn a w))
                           (missing f (specialize c' a rows) (a + n'))) fam))
                  else
                    match missing f (default_rows rows) n' with
                    | None => None
                    | Some [] => Some []
                    | Some ws =>
                        Some (flat_map (fun '(c', a) =>
                                if con_mem c' hs then []
                                else map (cons (mkPat c' (repeat Pat_any a) None)) ws) fam)
                    end
              | None => via_default
              end
          end
      end
  end.
End PatMatch.

Fixpoint pat_size (p : Pat) : nat :=
  match p with
  | mkPat _ args _ =>
      S ((fix go (l : list Pat) : nat :=
            match l with [] => 0 | a :: l' => pat_size a + go l' end) args)
  end.

(** The recursion bound used by [check]. *)
Definition pm_fuel (pats : list Pat) : nat :=
  8 * S (fold_right (fun p n => pat_size p + n) 0 pats).

(** Modelled from the spec: [pattern_match::check(lang, pats, ty)]. It
    fails when a constructor is not in the table (an error already
    reported); otherwise arm [i] is unreachable when it is not useful
    against arms [0..i], and [missing] are the uncovered patterns. *)
Definition check (lang : Lang) (pats : list Pat) (ty : Ty) : option Check :=
  let syms := lang_syms lang in
  if negb (pats_known syms pats) then None else
  let fuel := pm_fuel pats in
  let rows := map (fun p => [p]) pats in
  let reach :=
    opt_all (map (fun i =>
      match nth_error pats i with
      | Some p =>
          option_map (fun u : bool => if u then @nil (option nat) else [Pat_idx p])
            (useful syms fuel (firstn i rows) [p])
      | None => Some (@nil (option nat))
      end) (seq 0 (length pats))) in
  match reach, missing syms fuel rows 1 with
  | Some un, Some ms => Some (mkCheck (List.concat un) (map (hd Pat_any) ms))
  | _, _ => None
  end.

Definition pat_true (i : nat) : Pat := Pat_con (Con_Variant Sym_BOOL "true") [] i.
Definition pat_false (i : nat) : Pat := Pat_con (Con_Variant Sym_BOOL "false") [] i.

(** ** Type annotations and patterns of the arena checker
    ([statics/src/ty.rs], [statics/src/pat.rs])

    The HIR arenas are written as trees: [ars.ty[idx]] is the node itself. *)

(** [hir::Path]: structure names, then the last name. *)
Record Path : Type := mkPath { path_structures : list Name; path_last : Name }.

(** [hir::Ty] *)
Inductive HTy : Type :=
| HTy_None
| HTy_Var (v : Name)
| HTy_Record (rows : list (Lab * HTy))
| HTy_Con (args : list HTy) (path : Path)
| HTy_Fn (param : HTy) (res : HTy).

(** [hir::SCon] *)
Inductive SCon : Type :=
| SCon_Int (i : Z)
| SCon_Real (r : string)
| SCon_Word (w : nat)
| SCon_Char (c : nat)
| SCon_String (s : string).

(** [hir::Pat], each node with its [PatIdx]. *)
Inductive HPat : Type :=
| HPat_None (idx : nat)
| HPat_Wild (idx : nat)
| HPat_SCon (idx : nat) (scon : SCon)
| HPat_Con (idx : nat) (path : Path) (arg : option HPat)
| HPat_Record (idx : nat) (rows : list (Lab * HPat)) (allows_other : bool)
| HPat_Typed (idx : nat) (pat : HPat) (want : HTy)
| HPat_As (idx : nat) (name : Name) (pat : HPat).

(** A nested induction principle for [hir::Ty]. *)
Section HTyInd.
Variable P : HTy -> Prop.
Hypothesis H_None : P HTy_None.
Hypothesis H_Var : forall v, P (HTy_Var v).
Hypothesis H_Record : forall rows, Forall (fun r => P (snd r)) rows -> P (HTy_Record rows).
Hypothesis H_Con : forall args path, Forall P args -> P (HTy_Con args path).
Hypothesis H_Fn : forall p r, P p -> P r -> P (HTy_Fn p r).

Fixpoint HTy_ind' (t : HTy) : P t :=
  match t with
  | HTy_None => H_None
  | HTy_Var v => H_Var v
  | HTy_Record rows =>
      H_Record rows
        ((fix go (rs : list (Lab * HTy)) : Forall (fun r => P (snd r)) rs :=
            match rs with
            | [] => Forall_nil _
            | r :: rs' => Forall_cons r (HTy_ind' (snd r)) (go rs')
            end) rows)
  | HTy_Con args path =>
      H_Con args path
        ((fix go (ts : list HTy) : Forall P ts :=
            match ts with
            | [] => Forall_nil _
            | t' :: ts' => Forall_cons t' (HTy_ind' t') (go ts')
            end) args)
  | HTy_Fn p r => H_Fn p r (HTy_ind' p) (HTy_ind' r)
  end.
End HTyInd.

(** Whether a HIR type mentions no type variable. *)
Fixpoint hty_no_var (t : HTy) : bool :=
  match t with
  | HTy_None => true
  | HTy_Var _ => false
  | HTy_Record rows => forallb (fun r => hty_no_var (snd r)) rows
  | HTy_Con args _ => forallb hty_no_var args
  | HTy_Fn p r => hty_no_var p && hty_no_var r
  end.

(** Definition: Env of [statics/src/types.rs], its maps as entry lists. *)
Inductive Env : Type :=
| mkEnv (str_env : list (Name * Env)) (ty_env : list (Name * Sym)) (val_env : ValEnv).

Definition env_str_env (e : Env) : list (Name * Env) := let '(mkEnv s _ _) := e in s.
Definition env_ty_env (e : Env) : list (Name * Sym) := let '(mkEnv _ t _) := e in t.
Definition env_val_env (e : Env) : ValEnv := let '(mkEnv _ _ v) := e in v.

(** Definition: Context *)
Record Cx : Type := mkCx { cx_env : Env }.

(** The errors [ty::get] and [pat::get] record ([crate::error::Error]). *)
Inductive SError : Type :=
| SE_Undefined
| SE_RealPat
| SE_PatValIdStatus
| SE_PatMustNotHaveArg
| SE_PatMustHaveArg
| SE_DuplicateLab (lab : Lab).

(** The checking state of the arena checker, as [ty.rs] and [pat.rs] use
    it: the recorded errors, the meta variable generator and the
    substitution. *)
Record SSt : Type := mkSSt { sst_errors : list SError; sst_meta_gen : nat; sst_subst : Subst }.

Definition SSt_err (st : SSt) (e : SError) : SSt :=
  mkSSt (sst_errors st ++ [e]) (sst_meta_gen st) (sst_subst st).

Definition SSt_gen_meta_var (st : SSt) : SSt * MetaTyVar :=
  (mkSSt (sst_errors st) (S (sst_meta_gen st)) (sst_subst st),
   mkMetaTyVar (sst_meta_gen st) false).

(** A computation that finishes or panics ([todo!()], [unreachable!()]). *)
Inductive Ret (A : Type) : Type :=
| Done (a : A)
| Panic.
Arguments Done {A} a.
Arguments Panic {A}.

(** Modelled from the spec: [util::get_env] (not among the sources):
    resolve the structure part of a path against the environment. *)
Fixpoint get_env (env : Env) (strs : list Name) : option Env :=
  match strs with
  | [] => Some env
  | s :: rest =>
      match assoc_get s (env_str_env env) with
      | Some e => get_env e rest
      | None => None
      end
  end.

(** The derived order on [hir::Lab], names before numbers. *)
Definition Lab_ltb (a b : Lab) : bool :=
  match a, b with
  | Lab_Name x, Lab_Name y => String.ltb x y
  | Lab_Num x, Lab_Num y => Nat.ltb x y
  | Lab_Name _, Lab_Num _ => true
  | Lab_Num _, Lab_Name _ => false
  end.

(** [BTreeMap::insert] on the sorted entries. *)
Fixpoint btree_insert (l : Lab) (t : Ty) (m : list (Lab * Ty)) : list (Lab * Ty) :=
  match m with
  | [] => [(l, t)]
  | (l', t') :: m' =>
      if Lab_eqb l l' then (l, t) :: m'
      else if Lab_ltb l l' then (l, t) :: (l', t') :: m'
      else (l', t') :: btree_insert l t m'
  end.

Section Record.
(** [S] is the state the row closure mutates: the checker state, and in
    [pat::get] also the label and pattern vectors it pushes to. *)
Context {S X : Type}.
Variable s_err : S -> SError -> S.
Variable f : S -> Lab -> X -> Ret (S * Ty).

(** Modelled from the spec: [util::record(st, rows, f)] (not among the
    sources): "records build row types with duplicate-label detection".
    Each row is checked in order; a repeated label is recorded as an
    error and the row is left out of the row type. *)
Fixpoint record_rows (st : S) (rows : list (Lab * X)) (acc : list (Lab * Ty))
    : Ret (S * list (Lab * Ty)) :=
  match rows with
  | [] => Done (st, acc)
  | (lab, x) :: rest =>
      match f st lab x with
      | Panic => Panic
      | Done (st1, ty) =>
          if existsb (fun e => Lab_eqb lab (fst e)) acc
          then record_rows (s_err st1 (SE_DuplicateLab lab)) rest acc
          else record_rows st1 rest (btree_insert lab ty acc)
      end
  end.

Definition record (st : S) (rows : list (Lab * X)) : Ret (S * Ty) :=
  match record_rows st rows [] with
  | Panic => Panic
  | Done (st1, m) => Done (st1, Ty_Record m)
  end.
End Record.

(** [ty::get(st, cx, ars, ty) -> Ty] *)
Fixpoint ty_get (st : SSt) (cx : Cx) (ty : HTy) {struct ty} : Ret (SSt * Ty) :=
  match ty with
  | HTy_None => Done (st, Ty_None)
  | HTy_Var _ => Panic
  | HTy_Record rows => record SSt_err (fun st _ t => ty_get st cx t) st rows
  | HTy_Con args path =>
      match get_env (cx_env cx) (path_structures path) with
      | None => Done (SSt_err st SE_Undefined, Ty_None)
      | Some env =>
          match assoc_get (path_last path) (env_ty_env env) with
          | None => Done (SSt_err st SE_Undefined, Ty_None)
          | Some sym =>
              match (fix go (st : SSt) (args : list HTy) : Ret (SSt * list Ty) :=
                       match args with
                       | [] => Done (st, [])
                       | a :: rest =>
                           match ty_get st cx a with
                           | Panic => Panic
                           | Done (st1, t) =>
                               match go st1 rest with
                               | Panic => Panic
                               | Done (st2, ts) => Done (st2, t :: ts)
                               end
                           end
                       end) st args with
              | Panic => Panic
              | Done (st1, ts) => Done (st1, Ty_Con ts sym)
              end
          end
      end
  | HTy_Fn param res =>
      match ty_get st cx param with
      | Panic => Panic
      | Done (st1, p) =>
          match ty_get st1 cx res with
          | Panic => Panic
          | Done (st2, r) => Done (st2, Ty_Fn p r)
          end
      end
  end.

(** Modelled from the spec: [util::get_scon], the fixed base type of a
    literal. *)
Definition get_scon (scon : SCon) : Ty :=
  match scon with
  | SCon_Int _ => Ty_zero Sym_INT
  | SCon_Real _ => Ty_zero Sym_REAL
  | SCon_Word _ => Ty_zero Sym_WORD
  | SCon_Char _ => Ty_zero Sym_CHAR
  | SCon_String _ => Ty_zero Sym_STRING
  end.

Section PatGet.
(** [instantiate], [unify] and [apply] are called by [pat::get]; they
    are parameters here. *)
Variable instantiate : SSt -> TyScheme -> SSt * Ty.
Variable unify_st : SSt -> Ty -> Ty -> SSt.
Variable apply_st : Subst -> Ty -> Ty.

(** [fn any(st, pat) -> (Pat, Ty)] *)
Definition pat_any (st : SSt) (idx : nat) : SSt * Pat * Ty :=
  let '(st1, mv) := SSt_gen_meta_var st in
  (st1, Pat_zero Con_Any idx, Ty_MetaVar mv).

Definition err3 (s : SSt * list Lab * list Pat) (e : SError) : SSt * list Lab * list Pat :=
  let '(st, labs, pats) := s in (SSt_err st e, labs, pats).

(** [pat::get(st, cx, ars, ve, pat) -> (Pat, Ty)]; the [ve] argument is
    not used by the function and is left out. *)
Fixpoint pat_get (st : SSt) (cx : Cx) (p : HPat) {struct p} : Ret (SSt * Pat * Ty) :=
  match p with
  | HPat_None idx => Done (st, Pat_zero Con_Any idx, Ty_None)
  | HPat_Wild idx => Done (pat_any st idx)
  | HPat_SCon idx scon =>
      let '(st1, con) :=
        match scon with
        | SCon_Int i => (st, Con_Int i)
        | SCon_Real _ => (SSt_err st SE_RealPat, Con_Any)
        | SCon_Word w => (st, Con_Word w)
        | SCon_Char c => (st, Con_Char c)
        | SCon_String s => (st, Con_String s)
        end in
      Done (st1, Pat_zero con idx, get_scon scon)
  | HPat_Con idx path arg =>
      let is_var :=
        match arg with None => true | Some _ => false end
        && match path_structures path with [] => true | _ => false end
        && match assoc_get (path_last path) (env_val_env (cx_env cx)) with
           | Some _ => false | None => true end in
      if is_var then Done (pat_any st idx) else
      let arg_r :=
        match arg with
        | None => Done (st, None)
        | Some a =>
            match pat_get st cx a with
            | Panic => Panic
            | Done (st1, ap, aty) => Done (st1, Some (ap, aty))
            end
        end in
      match arg_r with
      | Panic => Panic
      | Done (st, arg) =>
          match get_env (cx_env cx) (path_structures path) with
          | None => Done (pat_any (SSt_err st SE_Undefined) idx)
          | Some env =>
              match assoc_get (path_last path) (env_val_env env) with
              | None => Done (pat_any (SSt_err st SE_Undefined) idx)
              | Some val_info =>
                  let st :=
                    match vi_id_status val_info with
                    | IdStatus_Val => SSt_err st SE_PatValIdStatus
                    | _ => st
                    end in
                  let '(st, ty) := instantiate st (vi_ty_scheme val_info) in
                  let r :=
                    match ty with
                    | Ty_Con _ sym =>
                        let st := match arg with
                                  | Some _ => SSt_err st SE_PatMustNotHaveArg
                                  | None => st
                                  end in
                        Done (st, sym, @nil Pat, ty)
                    | Ty_Fn param_ty res_ty =>
                        match res_ty with
                        | Ty_Con _ sym =>
                            match arg with
                            | None =>
                                Done (SSt_err st SE_PatMustHaveArg, sym,
                                      [Pat_zero Con_Any idx], res_ty)
                            | Some (arg_pat, arg_ty) =>
                                let st := unify_st st param_ty arg_ty in
                                let res_ty := apply_st (sst_subst st) res_ty in
                                Done (st, sym, [arg_pat], res_ty)
                            end
                        | _ => Panic
                        end
                    | _ => Panic
                    end in
                  match r with
                  | Panic => Panic
                  | Done (st, sym, args, ty) =>
                      Done (st, Pat_con (Con_Variant sym (path_last path)) args idx, ty)
                  end
              end
          end
      end
  | HPat_Record idx rows allows_other =>
      if allows_other then Panic else
      match record err3
              (fun s lab x =>
                 let '(st, labs, pats) := s in
                 match pat_get st cx x with
                 | Panic => Panic
                 | Done (st1, pm_pat, ty) => Done ((st1, labs ++ [lab], pats ++ [pm_pat]), ty)
                 end) (st, [], []) rows with
      | Panic => Panic
      | Done ((st1, labs, pats), ty) => Done (st1, Pat_con (Con_Record labs) pats idx, ty)
      end
  | HPat_Typed idx pat want =>
      match pat_get st cx pat with
      | Panic => Panic
      | Done (st1, pm_pat, got) =>
          match ty_get st1 cx want with
          | Panic => Panic
          | Done (st2, want) =>
              let st3 := unify_st st2 want got in
              Done (st3, pm_pat, apply_st (sst_subst st3) want)
          end
      end
  | HPat_As _ _ pat => pat_get st cx pat
  end.
End PatGet.

(** ** The core checker of [core/src/statics/ck/dec.rs]

    Its types, AST and helper functions live in files of the repository
    that are not among the sources read here; their shapes follow their
    uses in [dec.rs]. *)
Module Core.

(** [StrRef], an interned name. *)
Definition StrRef := string.
Definition StrRef_TRUE : StrRef := "true".
Definition StrRef_FALSE : StrRef := "false".
Definition StrRef_NIL : StrRef := "nil".
Definition StrRef_CONS : StrRef := "::".
Definition StrRef_REF : StrRef := "ref".

(** [Loc], a source range, and [Located<T>]. *)
Definition Loc := (nat * nat)%type.
Definition Loc_span (a b : Loc) : Loc := (fst a, snd b).

Record Located (A : Type) : Type := mkLocated { loc : Loc; val : A }.
Arguments mkLocated {A} loc val.
Arguments loc {A} l.
Arguments val {A} l.

(** [Label] *)
Inductive Label : Type :=
| Label_Vid (name : StrRef)
| Label_Num (n : nat).

Definition Label_eqb (a b : Label) : bool :=
  match a, b with
  | Label_Vid x, Label_Vid y => String.eqb x y
  | Label_Num x, Label_Num y => Nat.eqb x y
  | _, _ => false
  end.

Record TyVar : Type := mkTyVar { tv_id : nat; tv_equality : bool }.
Record CSym : Type := mkCSym { csym_idx : nat }.

(** The core [Ty]: a record holds its rows as a vector. *)
Inductive Ty : Type :=
| Var (tv : TyVar)
| Record (rows : list (Label * Ty))
| Arrow (param : Ty) (res : Ty)
| Ctor (args : list Ty) (sym : CSym).

(** The base types, with the built-in symbols numbered as in the symbol
    table of the statics crate. *)
Definition Ty_BOOL := Ctor [] (mkCSym 0).
Definition Ty_CHAR := Ctor [] (mkCSym 1).
Definition Ty_INT := Ctor [] (mkCSym 2).
Definition Ty_REAL := Ctor [] (mkCSym 3).
Definition Ty_STRING := Ctor [] (mkCSym 4).
Definition Ty_WORD := Ctor [] (mkCSym 5).
Definition Ty_EXN := Ctor [] (mkCSym 6).
Definition Ty_list (elem : Ty) := Ctor [elem] (mkCSym 8).

Record TyScheme : Type := mkTyScheme { ts_ty_vars : list TyVar; ts_ty : Ty }.
Definition TyScheme_mono (ty : Ty) : TyScheme := mkTyScheme [] ty.

Inductive IdStatus : Type := IdStatus_Ctor | IdStatus_Exn | IdStatus_Val.
Record ValInfo : Type := mkValInfo { vi_ty_scheme : TyScheme; vi_id_status : IdStatus }.
Definition ValInfo_val (ts : TyScheme) := mkValInfo ts IdStatus_Val.
Definition ValInfo_ctor (ts : TyScheme) := mkValInfo ts IdStatus_Ctor.

Inductive TyInfo : Type :=
| TyInfo_Alias (ts : TyScheme)
| TyInfo_Datatype (sym : CSym).

(** Hash maps keyed by names, as entry lists with unique keys. *)
Definition Map (A : Type) := list (StrRef * A).

Definition map_get {A : Type} (k : StrRef) (m : Map A) : option A := assoc_get k m.

(** [HashMap::insert]: the new map and the previous value. *)
Definition map_insert {A : Type} (k : StrRef) (v : A) (m : Map A) : Map A * option A :=
  ((k, v) :: filter (fun e => negb (String.eqb k (fst e))) m, map_get k m).

Definition map_extend {A : Type} (m : Map A) (other : Map A) : Map A :=
  fold_left (fun acc e => fst (map_insert (fst e) (snd e) acc)) other m.

Definition ValEnv := Map ValInfo.
Definition TyEnv := Map TyInfo.

Inductive Env : Type :=
| mkEnv (str_env : list (StrRef * Env)) (ty_env : TyEnv) (val_env : ValEnv).

Definition env_str_env (e : Env) := let '(mkEnv s _ _) := e in s.
Definition env_ty_env (e : Env) := let '(mkEnv _ t _) := e in t.
Definition env_val_env (e : Env) := let '(mkEnv _ _ v) := e in v.

Definition Env_default : Env := mkEnv [] [] [].
Definition Env_of_val_env (ve : ValEnv) : Env := mkEnv [] [] ve.
Definition Env_of_ty_env (te : TyEnv) : Env := mkEnv [] te [].

(** Modelled from the spec: [Env::extend] and [Cx::o_plus]: later bindings
    shadow earlier ones by replacement. *)
Definition Env_extend (e other : Env) : Env :=
  mkEnv (map_extend (env_str_env e) (env_str_env other))
        (map_extend (env_ty_env e) (env_ty_env other))
        (map_extend (env_val_env e) (env_val_env other)).

Record Cx : Type := mkCx { cx_env : Env; cx_ty_names : list StrRef }.

Definition Cx_o_plus (cx : Cx) (env : Env) : Cx :=
  mkCx (Env_extend (cx_env cx) env) (cx_ty_names cx).

Definition Cx_extend_val_env (cx : Cx) (ve : ValEnv) : Cx :=
  let '(mkEnv s t v) := cx_env cx in mkCx (mkEnv s t (map_extend v ve)) (cx_ty_names cx).

Record DatatypeInfo : Type := mkDatatypeInfo { dt_ty_fcn : TyScheme; dt_val_env : ValEnv }.

(** The core [State]: the substitution, the type variable and symbol
    counters, and the datatype table. *)
Record State : Type := mkState {
  st_subst : list (nat * Ty);
  st_next_ty_var : nat;
  st_next_sym : nat;
  st_datatypes : list (CSym * DatatypeInfo)
}.

(** Modelled from the spec: [State::new_ty_var] and [State::new_sym] mint
    fresh identities from counters. *)
Definition new_ty_var (st : State) (equality : bool) : State * TyVar :=
  (mkState (st_subst st) (S (st_next_ty_var st)) (st_next_sym st) (st_datatypes st),
   mkTyVar (st_next_ty_var st) equality).

Definition new_sym (st : State) (name : Located StrRef) : State * CSym :=
  (mkState (st_subst st) (st_next_ty_var st) (S (st_next_sym st)) (st_datatypes st),
   mkCSym (st_next_sym st)).

Definition dt_insert (st : State) (sym : CSym) (info : DatatypeInfo) : State * bool :=
  let had := existsb (fun e => Nat.eqb (csym_idx (fst e)) (csym_idx sym)) (st_datatypes st) in
  (mkState (st_subst st) (st_next_ty_var st) (st_next_sym st)
     ((sym, info) :: filter (fun e => negb (Nat.eqb (csym_idx (fst e)) (csym_idx sym)))
                      (st_datatypes st)),
   had).

Inductive StaticsError : Type :=
| Todo
| DuplicateLabel (lab : Label)
| NonExhaustiveMatch
| NonExhaustiveBinding
| ForbiddenBinding (name : StrRef)
| FunDecNameMismatch (a b : StrRef)
| FunDecWrongNumPats (a b : nat)
| Redefined (name : StrRef)
| Duplicate (name : StrRef)
| TyNameEscape
| Other (what : string).

(** [Result<T>]: failure carries the location of the error. *)
Definition Res (A : Type) := ((Loc * StaticsError) + A)%type.

(** A checker computation: its final state and value, an error, or a
    panic. *)
Inductive Outcome (A : Type) : Type :=
| COk (st : State) (a : A)
| CErr (l : Loc) (e : StaticsError)
| CPanic.
Arguments COk {A} st a.
Arguments CErr {A} l e.
Arguments CPanic {A}.

Definition obind {A B : Type} (m : Outcome A) (k : State -> A -> Outcome B) : Outcome B :=
  match m with
  | COk st a => k st a
  | CErr l e => CErr l e
  | CPanic => CPanic
  end.

Notation "'let!' ( s , x ) ':=' m 'in' k" := (obind m (fun s x => k))
  (at level 200, s name, x name, m at level 100, k at level 200).

(** The [?] operator on a [Result]. *)
Definition lift {A : Type} (st : State) (r : Res A) : Outcome A :=
  match r with
  | inl (l, e) => CErr l e
  | inr a => COk st a
  end.

Definition err {A : Type} (l : Loc) (e : StaticsError) : Outcome A := CErr l e.

(** Modelled from the spec: [util::env_ins] and [util::env_merge], the
    dupe-checked insertions. *)
Definition env_ins {A : Type} (m : Map A) (name : Located StrRef) (v : A) : Res (Map A) :=
  match map_get (val name) m with
  | Some _ => inl (loc name, Duplicate (val name))
  | None => inr (fst (map_insert (val name) v m))
  end.

Definition env_merge {A : Type} (m : Map A) (other : Map A) (l : Loc) : Res (Map A) :=
  fold_left (fun acc e =>
    match acc with
    | inl x => inl x
    | inr m' => env_ins m' (mkLocated l (fst e)) (snd e)
    end) other (inr m).

(** The AST the core checker walks ([crate::ast]), as far as [dec.rs]
    uses it. Types and patterns are handed to [ty::ck] and [pat::ck]. *)
Record LongVid : Type := mkLongVid { lv_structures : list (Located StrRef); lv_last : Located StrRef }.

Inductive AstTy : Type :=
| ATy_TyVar (name : StrRef)
| ATy_Record (rows : list (Label * Located AstTy))
| ATy_Ctor (args : list (Located AstTy)) (name : LongVid)
| ATy_Arrow (param : Located AstTy) (res : Located AstTy).

Definition LTy := Located AstTy.

Inductive AstPat : Type :=
| APat_Wildcard
| APat_DecInt (i : Z)
| APat_String (s : string)
| APat_LongVid (vid : LongVid)
| APat_Record (rows : list (Label * Located AstPat)) (rest : bool)
| APat_Tuple (pats : list (Located AstPat))
| APat_List (pats : list (Located AstPat))
| APat_Ctor (vid : LongVid) (arg : Located AstPat)
| APat_Typed (pat : Located AstPat) (ty : LTy)
| APat_As (name : Located StrRef) (pat : Located AstPat).

Definition LPat := Located AstPat.

(** The checker's pattern for exhaustiveness checking. *)
Inductive Pat : Type :=
| Pat_Anything
| Pat_Con (name : StrRef) (arg : option Pat)
| Pat_Record (rows : list (Label * Pat))
| Pat_Lit (what : string).

Inductive LExp : Type :=
| LExp_at (l : Loc) (e : Exp)
with Exp : Type :=
| Exp_DecInt (i : Z)
| Exp_HexInt (i : Z)
| Exp_DecWord (w : nat)
| Exp_HexWord (w : nat)
| Exp_Real (r : string)
| Exp_String (s : string)
| Exp_Char (c : nat)
| Exp_LongVid (vid : LongVid)
| Exp_Record (rows : list (Located Label * LExp))
| Exp_Select (lab : Located Label)
| Exp_Tuple (exps : list LExp)
| Exp_List (exps : list LExp)
| Exp_Sequence (exps : list LExp)
| Exp_Let (dec : LDec) (exps : list LExp)
| Exp_App (func : LExp) (arg : LExp)
| Exp_InfixApp (lhs : LExp) (func : Located StrRef) (rhs : LExp)
| Exp_Typed (inner : LExp) (ty : LTy)
| Exp_Andalso (lhs : LExp) (rhs : LExp)
| Exp_Orelse (lhs : LExp) (rhs : LExp)
| Exp_Handle (head : LExp) (arms : list (LPat * LExp))
| Exp_Raise (exp : LExp)
| Exp_If (cond : LExp) (then_e : LExp) (else_e : LExp)
| Exp_While (cond : LExp) (body : LExp)
| Exp_Case (head : LExp) (arms : list (LPat * LExp))
| Exp_Fn (arms : list (LPat * LExp))
with LDec : Type :=
| LDec_at (l : Loc) (d : Dec)
with Dec : Type :=
(** [Val(ty_vars, val_binds)], a val bind being [(rec, pat, exp)]. *)
| Dec_Val (ty_vars : list (Located StrRef)) (val_binds : list (bool * LPat * LExp))
(** [Fun(ty_vars, fval_binds)], a clause being [(vid, pats, ret_ty, body)]. *)
| Dec_Fun (ty_vars : list (Located StrRef))
    (fval_binds : list (list (Located StrRef * list LPat * option LTy * LExp)))
(** [Type(ty_binds)], a ty bind being [(ty_vars, ty_con, ty)]. *)
| Dec_Type (ty_binds : list (list (Located StrRef) * Located StrRef * LTy))
(** [Datatype(dat_binds, ty_binds)], a dat bind being
    [(ty_vars, ty_con, cons)] and a con bind [(vid, ty)]. *)
| Dec_Datatype
    (dat_binds : list (list (Located StrRef) * Located StrRef * list (Located StrRef * option LTy)))
    (ty_binds : list (list (Located StrRef) * Located StrRef * LTy))
| Dec_DatatypeCopy (ty_con : Located StrRef) (vid : LongVid)
| Dec_Abstype
| Dec_Exception
| Dec_Local (local_dec : LDec) (in_dec : LDec)
| Dec_Open (vids : list LongVid)
| Dec_Seq (decs : list LDec)
| Dec_Infix
| Dec_Infixr
| Dec_Nonfix.

Definition LExp_loc (e : LExp) : Loc := let '(LExp_at l _) := e in l.
Definition LDec_loc (d : LDec) : Loc := let '(LDec_at l _) := d in l.

(** The helpers [dec.rs] calls from its sibling modules ([util], [pat],
    [ty], [exhaustive], and the methods of [Subst] and [Ty]). *)
Record Ops : Type := mkOps {
  op_unify : State -> Loc -> Ty -> Ty -> Outcome unit;
  op_instantiate : State -> TyScheme -> Loc -> State * Ty;
  op_get_env : Cx -> LongVid -> Res Env;
  op_get_val_info : Env -> Located StrRef -> Res ValInfo;
  op_tuple_lab : nat -> Label;
  op_ty_ck : Cx -> State -> LTy -> Outcome Ty;
  op_pat_ck : Cx -> State -> LPat -> Outcome (ValEnv * Ty * Pat);
  op_exhaustive_ck : list (CSym * DatatypeInfo) -> Ty -> list (Located Pat) -> Res bool;
  op_apply : list (nat * Ty) -> Ty -> Ty;
  op_ty_names_subset : Ty -> list StrRef -> bool;
  op_generalize : TyEnv -> list (CSym * DatatypeInfo) -> TyScheme -> TyScheme
}.

(** [fn ck_binding(name: Located<StrRef>) -> Result<()>] *)
Definition ck_binding (name : Located StrRef) : Res unit :=
  if existsb (String.eqb (val name))
       [StrRef_TRUE; StrRef_FALSE; StrRef_NIL; StrRef_CONS; StrRef_REF]
  then inl (loc name, ForbiddenBinding (val name))
  else inr tt.

(** [struct FunInfo { args: Vec<TyVar>, ret: TyVar }] *)
Record FunInfo : Type := mkFunInfo { fi_args : list TyVar; fi_ret : TyVar }.

(** [fn fun_infos_to_ve(fun_infos) -> ValEnv] *)
Definition fun_infos_to_ve (fun_infos : Map FunInfo) : ValEnv :=
  map (fun '(name, fun_info) =>
    let ty := fold_left (fun ac tv => Arrow (Var tv) ac) (rev (fi_args fun_info)) (Var (fi_ret fun_info)) in
    (name, ValInfo_val (TyScheme_mono ty))) fun_infos.

(** A loop over a vector threading the state, stopping at the first
    failure ([?] inside a [for]). *)
Definition for_each {A B : Type} (st : State) (xs : list A) (acc : B)
    (body : State -> B -> A -> Outcome B) : Outcome B :=
  (fix go (st : State) (xs : list A) (acc : B) : Outcome B :=
     match xs with
     | [] => COk st acc
     | x :: xs' =>
         match body st acc x with
         | COk st1 acc1 => go st1 xs' acc1
         | CErr l e => CErr l e
         | CPanic => CPanic
         end
     end) st xs acc.

Definition Ty_apply (ops : Ops) (st : State) (t : Ty) : Ty := op_apply ops (st_subst st) t.

Section Ck.
Variable ops : Ops.

(** [fn ck_cases(cx, st, cases, loc) -> Result<(Ty, Ty)>], with the
    expression checker passed in. *)
Definition ck_cases (ck_exp : Cx -> State -> LExp -> Outcome Ty)
    (cx : Cx) (st : State) (arms : list (LPat * LExp)) (l : Loc) : Outcome (Ty * Ty) :=
  let '(st, arg_tv) := new_ty_var st false in
  let '(st, res_tv) := new_ty_var st false in
  let arg_ty := Var arg_tv in
  let res_ty := Var res_tv in
  let! (st, pats) :=
    for_each st arms [] (fun st pats '(pat, exp) =>
      let! (st, r) := op_pat_ck ops cx st pat in
      let '(val_env, pat_ty, p) := r in
      let pats := pats ++ [mkLocated (loc pat) p] in
      let cx := Cx_extend_val_env cx val_env in
      let! (st, exp_ty) := ck_exp cx st exp in
      let! (st, _u) := op_unify ops st (loc pat) arg_ty pat_ty in
      let! (st, _u) := op_unify ops st (LExp_loc exp) res_ty exp_ty in
      COk st pats) in
  let arg_ty := Ty_apply ops st arg_ty in
  let! (st, ok) := lift st (op_exhaustive_ck ops (st_datatypes st) arg_ty pats) in
  if ok then COk st (arg_ty, res_ty) else err l NonExhaustiveMatch.

Definition Cx_set_ty_env (cx : Cx) (te : TyEnv) : Cx :=
  let '(mkEnv s _ v) := cx_env cx in mkCx (mkEnv s te v) (cx_ty_names cx).

Definition Cx_add_ty_name (cx : Cx) (n : StrRef) : Cx :=
  if existsb (String.eqb n) (cx_ty_names cx) then cx
  else mkCx (cx_env cx) (cx_ty_names cx ++ [n]).

(** [args: first.pats.iter().map(|_| st.new_ty_var(false)).collect()] *)
Definition new_ty_vars {A : Type} (st : State) (xs : list A) : State * list TyVar :=
  fold_left (fun '(st, acc) _ => let '(st1, tv) := new_ty_var st false in (st1, acc ++ [tv]))
    xs (st, []).

(** [fn ck_exp(cx, st, exp) -> Result<Ty>] and
    [pub fn ck(cx, st, dec) -> Result<Env>] *)
Fixpoint ck_exp (cx : Cx) (st : State) (exp : LExp) {struct exp} : Outcome Ty :=
  let '(LExp_at eloc e) := exp in
  match e with
  | Exp_DecInt _ => COk st Ty_INT
  | Exp_HexInt _ => COk st Ty_INT
  | Exp_DecWord _ => COk st Ty_WORD
  | Exp_HexWord _ => COk st Ty_WORD
  | Exp_Real _ => COk st Ty_REAL
  | Exp_String _ => COk st Ty_STRING
  | Exp_Char _ => COk st Ty_CHAR
  | Exp_LongVid vid =>
      let! (st, env) := lift st (op_get_env ops cx vid) in
      let! (st, val_info) := lift st (op_get_val_info ops env (lv_last vid)) in
      let '(st, t) := op_instantiate ops st (vi_ty_scheme val_info) eloc in
      COk st t
  | Exp_Record rows =>
      let! (st, r) :=
        for_each st rows ([], []) (fun st '(ty_rows, keys) '(lab, exp) =>
          let! (st, ty) := ck_exp cx st exp in
          if existsb (Label_eqb (val lab)) keys
          then err (loc lab) (DuplicateLabel (val lab))
          else COk st (ty_rows ++ [(val lab, ty)], keys ++ [val lab])) in
      COk st (Record (fst r))
  | Exp_Select _ => err eloc Todo
  | Exp_Tuple exps =>
      let! (st, r) :=
        for_each st exps ([], 0) (fun st '(ty_rows, idx) exp =>
          let! (st, ty) := ck_exp cx st exp in
          let lab := op_tuple_lab ops idx in
          COk st (ty_rows ++ [(lab, ty)], S idx)) in
      COk st (Record (fst r))
  | Exp_List exps =>
      let '(st, tv) := new_ty_var st false in
      let elem := Var tv in
      let! (st, _u) :=
        for_each st exps tt (fun st _ exp =>
          let! (st, ty) := ck_exp cx st exp in
          op_unify ops st (LExp_loc exp) elem ty) in
      COk st (Ty_list elem)
  | Exp_Sequence exps =>
      let! (st, ret) :=
        for_each st exps None (fun st _ exp =>
          let! (st, ty) := ck_exp cx st exp in
          COk st (Some ty)) in
      match ret with
      | Some ty => COk st ty
      | None => CPanic
      end
  | Exp_Let dec exps =>
      let! (st, env) := ck cx st dec in
      let ty_names := cx_ty_names cx in
      let cx := Cx_o_plus cx env in
      let! (st, last) :=
        for_each st exps None (fun st _ exp =>
          let! (st, ty) := ck_exp cx st exp in
          COk st (Some (LExp_loc exp, ty))) in
      match last with
      | None => CPanic
      | Some (l, ty) =>
          let ty := Ty_apply ops st ty in
          if negb (op_ty_names_subset ops ty ty_names) then err l TyNameEscape
          else COk st ty
      end
  | Exp_App func arg =>
      let! (st, func_ty) := ck_exp cx st func in
      let! (st, arg_ty) := ck_exp cx st arg in
      let '(st, tv) := new_ty_var st false in
      let ret_ty := Var tv in
      let! (st, _u) := op_unify ops st eloc func_ty (Arrow arg_ty ret_ty) in
      COk st ret_ty
  | Exp_InfixApp lhs func rhs =>
      let! (st, val_info) := lift st (op_get_val_info ops (cx_env cx) func) in
      let '(st, func_ty) := op_instantiate ops st (vi_ty_scheme val_info) eloc in
      let! (st, lhs_ty) := ck_exp cx st lhs in
      let! (st, rhs_ty) := ck_exp cx st rhs in
      let '(st, tv) := new_ty_var st false in
      let ret_ty := Var tv in
      let arrow_ty := Arrow (Record [(Label_Num 1, lhs_ty); (Label_Num 2, rhs_ty)]) ret_ty in
      let! (st, _u) := op_unify ops st eloc func_ty arrow_ty in
      COk st ret_ty
  | Exp_Typed inner ty =>
      let! (st, exp_ty) := ck_exp cx st inner in
      let! (st, ty_ty) := op_ty_ck ops cx st ty in
      let! (st, _u) := op_unify ops st eloc ty_ty exp_ty in
      COk st exp_ty
  | Exp_Andalso lhs rhs | Exp_Orelse lhs rhs =>
      let! (st, lhs_ty) := ck_exp cx st lhs in
      let! (st, rhs_ty) := ck_exp cx st rhs in
      let! (st, _u) := op_unify ops st (LExp_loc lhs) Ty_BOOL lhs_ty in
      let! (st, _u) := op_unify ops st (LExp_loc rhs) Ty_BOOL rhs_ty in
      COk st Ty_BOOL
  | Exp_Handle head arms =>
      let! (st, head_ty) := ck_exp cx st head in
      let! (st, r) := ck_cases ck_exp cx st arms eloc in
      let '(arg_ty, res_ty) := r in
      let! (st, _u) := op_unify ops st eloc Ty_EXN arg_ty in
      let! (st, _u) := op_unify ops st eloc head_ty res_ty in
      COk st head_ty
  | Exp_Raise exp =>
      let! (st, exp_ty) := ck_exp cx st exp in
      let! (st, _u) := op_unify ops st (LExp_loc exp) Ty_EXN exp_ty in
      let '(st, tv) := new_ty_var st false in
      COk st (Var tv)
  | Exp_If cond then_e else_e =>
      let! (st, cond_ty) := ck_exp cx st cond in
      let! (st, then_ty) := ck_exp cx st then_e in
      let! (st, else_ty) := ck_exp cx st else_e in
      let! (st, _u) := op_unify ops st (LExp_loc cond) Ty_BOOL cond_ty in
      let! (st, _u) := op_unify ops st eloc then_ty else_ty in
      COk st then_ty
  | Exp_While _ _ => err eloc Todo
  | Exp_Case head arms =>
      let! (st, head_ty) := ck_exp cx st head in
      let! (st, r) := ck_cases ck_exp cx st arms eloc in
      let '(arg_ty, res_ty) := r in
      let! (st, _u) := op_unify ops st eloc head_ty arg_ty in
      COk st res_ty
  | Exp_Fn arms =>
      let! (st, r) := ck_cases ck_exp cx st arms eloc in
      let '(arg_ty, res_ty) := r in
      COk st (Arrow arg_ty res_ty)
  end

with ck (cx : Cx) (st : State) (dec : LDec) {struct dec} : Outcome Env :=
  let '(LDec_at dloc d) := dec in
  match d with
  | Dec_Val ty_vars val_binds =>
      match ty_vars with
      | tv :: _ => err (loc tv) Todo
      | [] =>
          let! (st, val_env) :=
            for_each st val_binds [] (fun st val_env '(is_rec, pat, exp) =>
              if is_rec then err dloc Todo else
              let! (st, r) := op_pat_ck ops cx st pat in
              let '(other, pat_ty, p) := r in
              let! (st, _u) :=
                for_each st other tt (fun st _ '(name, _) =>
                  lift st (ck_binding (mkLocated (loc pat) name))) in
              let! (st, exp_ty) := ck_exp cx st exp in
              let! (st, _u) := op_unify ops st dloc pat_ty exp_ty in
              let pat_ty := Ty_apply ops st pat_ty in
              let! (st, ok) :=
                lift st (op_exhaustive_ck ops (st_datatypes st) pat_ty [mkLocated (loc pat) p]) in
              if negb ok then err (loc pat) NonExhaustiveBinding else
              for_each st other val_env (fun st val_env '(name, val_info) =>
                match ts_ty_vars (vi_ty_scheme val_info) with
                | _ :: _ => CPanic
                | [] =>
                    let ts := TyScheme_mono (Ty_apply ops st (ts_ty (vi_ty_scheme val_info))) in
                    let ts := op_generalize ops (env_ty_env (cx_env cx)) (st_datatypes st) ts in
                    lift st (env_ins val_env (mkLocated (loc pat) name)
                               (mkValInfo ts (vi_id_status val_info)))
                end)) in
          COk st (Env_of_val_env val_env)
      end
  | Dec_Fun ty_vars fval_binds =>
      match ty_vars with
      | tv :: _ => err (loc tv) Todo
      | [] =>
          let! (st, fun_infos) :=
            for_each st fval_binds [] (fun st fun_infos cases =>
              match cases with
              | [] => CPanic
              | (vid, pats, _, _) :: _ =>
                  let '(st, args) := new_ty_vars st pats in
                  let '(st, ret) := new_ty_var st false in
                  lift st (env_ins fun_infos vid (mkFunInfo args ret))
              end) in
          let! (st, _u) :=
            for_each st fval_binds tt (fun st _ cases =>
              match cases with
              | [] => CPanic
              | (vid0, _, _, _) :: _ =>
                  let name := val vid0 in
                  match map_get name fun_infos with
                  | None => CPanic
                  | Some info =>
                      let! (st, arg_pats) :=
                        for_each st cases [] (fun st arg_pats '(vid, pats, ret_ty, body) =>
                          if negb (String.eqb name (val vid))
                          then err (loc vid) (FunDecNameMismatch name (val vid)) else
                          if negb (Nat.eqb (length (fi_args info)) (length pats))
                          then err (loc vid) (FunDecWrongNumPats (length (fi_args info)) (length pats)) else
                          let! (st, r) :=
                            for_each st (combine pats (fi_args info)) ([], [], 0)
                              (fun st '(pats_val_env, arg_pat, idx) '(pat, tv) =>
                                let! (st, r) := op_pat_ck ops cx st pat in
                                let '(ve, pat_ty, new_pat) := r in
                                let! (st, _u) := op_unify ops st (loc pat) (Var tv) pat_ty in
                                let! (st, pve) := lift st (env_merge pats_val_env ve (loc pat)) in
                                COk st (pve, arg_pat ++ [(op_tuple_lab ops idx, new_pat)], S idx)) in
                          let '(pats_val_env, arg_pat, _) := r in
                          match pats with
                          | [] => CPanic
                          | p0 :: _ =>
                              let span := Loc_span (loc p0) (loc (last pats p0)) in
                              let arg_pats := arg_pats ++ [mkLocated span (Pat_Record arg_pat)] in
                              let! (st, _u) :=
                                match ret_ty with
                                | Some ty =>
                                    let! (st, new_ty) := op_ty_ck ops cx st ty in
                                    op_unify ops st (loc ty) (Var (fi_ret info)) new_ty
                                | None => COk st tt
                                end in
                              let cx := Cx_extend_val_env cx (fun_infos_to_ve fun_infos) in
                              let cx := Cx_extend_val_env cx pats_val_env in
                              let! (st, body_ty) := ck_exp cx st body in
                              let! (st, _u) := op_unify ops st (LExp_loc body) (Var (fi_ret info)) body_ty in
                              COk st arg_pats
                          end) in
                      let arg_ty :=
                        Record (combine (map (op_tuple_lab ops) (seq 0 (length (fi_args info))))
                                        (map Var (fi_args info))) in
                      let arg_ty := Ty_apply ops st arg_ty in
                      let! (st, ok) := lift st (op_exhaustive_ck ops (st_datatypes st) arg_ty arg_pats) in
                      if ok then COk st tt else
                      let '(_, _, _, last_body) := last cases (vid0, [], None, LExp_at (0, 0) (Exp_DecInt 0)) in
                      err (Loc_span (loc vid0) (LExp_loc last_body)) NonExhaustiveMatch
                  end
              end) in
          let val_env :=
            map (fun '(name, val_info) =>
              let ts := TyScheme_mono (Ty_apply ops st (ts_ty (vi_ty_scheme val_info))) in
              (name, mkValInfo (op_generalize ops (env_ty_env (cx_env cx)) (st_datatypes st) ts)
                               (vi_id_status val_info)))
              (fun_infos_to_ve fun_infos) in
          COk st (Env_of_val_env val_env)
      end
  | Dec_Type ty_binds =>
      let! (st, ty_env) :=
        for_each st ty_binds [] (fun st ty_env '(ty_vars, ty_con, ty) =>
          match ty_vars with
          | _ :: _ => err dloc Todo
          | [] =>
              let! (st, t) := op_ty_ck ops cx st ty in
              let '(ty_env, prev) := map_insert (val ty_con) (TyInfo_Alias (TyScheme_mono t)) ty_env in
              match prev with
              | Some _ => err (loc ty_con) (Redefined (val ty_con))
              | None => COk st ty_env
              end
          end) in
      COk st (Env_of_ty_env ty_env)
  | Dec_Datatype dat_binds ty_binds =>
      match ty_binds with
      | (_, x, _) :: _ => err (loc x) Todo
      | [] =>
          let! (st, r) :=
            for_each st dat_binds (cx, [], []) (fun st '(cx, ty_env, val_env) '(ty_vars, ty_con, ctors) =>
              match ty_vars with
              | x :: _ => err (loc x) Todo
              | [] =>
                  let '(st, sym) := new_sym st ty_con in
                  let! (st, cx_te) := lift st (env_ins (env_ty_env (cx_env cx)) ty_con (TyInfo_Datatype sym)) in
                  let cx := Cx_add_ty_name (Cx_set_ty_env cx cx_te) (val ty_con) in
                  let '(ty_env, prev) := map_insert (val ty_con) (TyInfo_Datatype sym) ty_env in
                  match prev with
                  | Some _ => CPanic
                  | None =>
                      let '(st, had) :=
                        dt_insert st sym (mkDatatypeInfo (TyScheme_mono (Ctor [] sym)) []) in
                      if had then CPanic else
                      let! (st, r) :=
                        for_each st ctors (val_env, []) (fun st '(val_env, bind_val_env) '(vid, arg) =>
                          let! (st, _u) := lift st (ck_binding vid) in
                          let! (st, ty) :=
                            match arg with
                            | Some arg_ty =>
                                let! (st, t) := op_ty_ck ops cx st arg_ty in
                                COk st (Arrow t (Ctor [] sym))
                            | None => COk st (Ctor [] sym)
                            end in
                          let! (st, val_env) :=
                            lift st (env_ins val_env vid (ValInfo_ctor (TyScheme_mono ty))) in
                          let '(bve, prev) := map_insert (val vid) (ValInfo_ctor (TyScheme_mono ty)) bind_val_env in
                          match prev with
                          | Some _ => CPanic
                          | None => COk st (val_env, bve)
                          end) in
                      let '(val_env, bind_val_env) := r in
                      let '(st, had) :=
                        dt_insert st sym (mkDatatypeInfo (TyScheme_mono (Ctor [] sym)) bind_val_env) in
                      if had then COk st (cx, ty_env, val_env) else CPanic
                  end
              end) in
          let '(_, ty_env, val_env) := r in
          COk st (mkEnv [] ty_env val_env)
      end
  | Dec_DatatypeCopy _ _ | Dec_Abstype | Dec_Exception | Dec_Local _ _ | Dec_Open _ =>
      err dloc Todo
  | Dec_Seq decs =>
      let! (st, r) :=
        for_each st decs (cx, Env_default) (fun st '(cx, ret) dec =>
          let cx := Cx_o_plus cx ret in
          let! (st, env) := ck cx st dec in
          COk st (cx, Env_extend ret env)) in
      COk st (snd r)
  | Dec_Infix | Dec_Infixr | Dec_Nonfix => COk st Env_default
  end.

End Ck.

(** The field expressions of record rows checked one after the other,
    each in the state the one before leaves, as the [Exp::Record] arm of
    [ck_exp] checks them (without its duplicate-label test). *)
Definition ck_rows (ops : Ops) (cx : Cx) (st : State) (rows : list (Located Label * LExp))
    : Outcome (list Ty) :=
  for_each st rows [] (fun st tys r =>
    let! (st, ty) := ck_exp ops cx st (snd r) in
    COk st (tys ++ [ty])).

(** ** A concrete instance of the helpers

    Modelled from the spec: the helpers of [dec.rs] that live in files not
    among the sources read here, small enough to run the checker on short
    programs: a substitution applied with a depth bound, first-order
    unification with the occurs check, a type checker for annotations, a
    pattern checker for wildcards, literals, names, tuples and records
    (other pattern forms report [Todo]), and an exhaustiveness check that
    accepts an irrefutable arm or a full set of nullary constructors. *)
Fixpoint capply (fuel : nat) (s : list (nat * Ty)) (t : Ty) : Ty :=
  match fuel with
  | 0 => t
  | S f =>
      match t with
      | Var tv =>
          match find (fun e => Nat.eqb (fst e) (tv_id tv)) s with
          | Some (_, t') => capply f s t'
          | None => t
          end
      | Record rows => Record (map (fun r => (fst r, capply f s (snd r))) rows)
      | Arrow a b => Arrow (capply f s a) (capply f s b)
      | Ctor args sym => Ctor (map (capply f s) args) sym
      end
  end.

Fixpoint coccurs (id : nat) (t : Ty) : bool :=
  match t with
  | Var tv => Nat.eqb id (tv_id tv)
  | Record rows => existsb (fun r => coccurs id (snd r)) rows
  | Arrow a b => coccurs id a || coccurs id b
  | Ctor args _ => existsb (coccurs id) args
  end.

Fixpoint labels_eqb (a b : list Label) : bool :=
  match a, b with
  | [], [] => true
  | x :: a', y :: b' => Label_eqb x y && labels_eqb a' b'
  | _, _ => false
  end.

Definition capply_depth : nat := 64.

Fixpoint cunify (fuel : nat) (s : list (nat * Ty)) (a b : Ty) : option (list (nat * Ty)) :=
  match fuel with
  | 0 => None
  | S f =>
      let fix unify_list (s : list (nat * Ty)) (xs ys : list Ty) : option (list (nat * Ty)) :=
        match xs, ys with
        | [], [] => Some s
        | x :: xs', y :: ys' =>
            match cunify f s x y with
            | Some s' => unify_list s' xs' ys'
            | None => None
            end
        | _, _ => None
        end in
      match capply capply_depth s a, capply capply_depth s b with
      | Var x, Var y =>
          if Nat.eqb (tv_id x) (tv_id y) then Some s else Some ((tv_id x, Var y) :: s)
      | Var x, t | t, Var x =>
          if coccurs (tv_id x) t then None else Some ((tv_id x, t) :: s)
      | Record r1, Record r2 =>
          if labels_eqb (map fst r1) (map fst r2) then unify_list s (map snd r1) (map snd r2)
          else None
      | Arrow a1 b1, Arrow a2 b2 => unify_list s [a1; b1] [a2; b2]
      | Ctor a1 s1, Ctor a2 s2 =>
          if Nat.eqb (csym_idx s1) (csym_idx s2) then unify_list s a1 a2 else None
      | _, _ => None
      end
  end.

Definition ex_unify (st : State) (l : Loc) (want got : Ty) : Outcome unit :=
  match cunify 64 (st_subst st) want got with
  | Some s => COk (mkState s (st_next_ty_var st) (st_next_sym st) (st_datatypes st)) tt
  | None => CErr l (Other "type mismatch")
  end.

Fixpoint subst_vars (m : list (nat * Ty)) (t : Ty) : Ty :=
  match t with
  | Var tv =>
      match find (fun e => Nat.eqb (fst e) (tv_id tv)) m with
      | Some (_, t') => t'
      | None => t
      end
  | Record rows => Record (map (fun r => (fst r, subst_vars m (snd r))) rows)
  | Arrow a b => Arrow (subst_vars m a) (subst_vars m b)
  | Ctor args sym => Ctor (map (subst_vars m) args) sym
  end.

Definition ex_instantiate (st : State) (ts : TyScheme) (l : Loc) : State * Ty :=
  let '(st, m) :=
    fold_left (fun '(st, m) tv =>
      let '(st1, tv') := new_ty_var st (tv_equality tv) in (st1, (tv_id tv, Var tv') :: m))
      (ts_ty_vars ts) (st, []) in
  (st, subst_vars m (ts_ty ts)).

Definition ex_get_env (cx : Cx) (vid : LongVid) : Res Env :=
  fold_left (fun acc s =>
    match acc with
    | inl e => inl e
    | inr env =>
        match map_get (val s) (env_str_env env) with
        | Some env' => inr env'
        | None => inl (loc s, Other "undefined structure")
        end
    end) (lv_structures vid) (inr (cx_env cx)).

Definition ex_get_val_info (env : Env) (name : Located StrRef) : Res ValInfo :=
  match map_get (val name) (env_val_env env) with
  | Some vi => inr vi
  | None => inl (loc name, Other "undefined value")
  end.

Definition ex_tuple_lab (idx : nat) : Label := Label_Num (S idx).

Fixpoint ex_ty_ck_go (cx : Cx) (ty : AstTy) : Res Ty :=
  match ty with
  | ATy_TyVar _ => inl ((0, 0), Todo)
  | ATy_Record rows =>
      match (fix go (rs : list (Label * Located AstTy)) : Res (list (Label * Ty)) :=
               match rs with
               | [] => inr []
               | (lab, t) :: rs' =>
                   match ex_ty_ck_go cx (val t), go rs' with
                   | inr t', inr rs'' => inr ((lab, t') :: rs'')
                   | inl e, _ | _, inl e => inl e
                   end
               end) rows with
      | inr rs => inr (Record rs)
      | inl e => inl e
      end
  | ATy_Ctor args name =>
      match (fix go (ts : list (Located AstTy)) : Res (list Ty) :=
               match ts with
               | [] => inr []
               | t :: ts' =>
                   match ex_ty_ck_go cx (val t), go ts' with
                   | inr t', inr ts'' => inr (t' :: ts'')
                   | inl e, _ | _, inl e => inl e
                   end
               end) args with
      | inl e => inl e
      | inr args' =>
          match map_get (val (lv_last name)) (env_ty_env (cx_env cx)) with
          | Some (TyInfo_Alias ts) => inr (ts_ty ts)
          | Some (TyInfo_Datatype sym) => inr (Ctor args' sym)
          | None => inl (loc (lv_last name), Other "undefined type")
          end
      end
  | ATy_Arrow p r =>
      match ex_ty_ck_go cx (val p), ex_ty_ck_go cx (val r) with
      | inr p', inr r' => inr (Arrow p' r')
      | inl e, _ | _, inl e => inl e
      end
  end.

Definition ex_ty_ck (cx : Cx) (st : State) (ty : LTy) : Outcome Ty :=
  match ex_ty_ck_go cx (val ty) with
  | inr t => COk st t
  | inl (_, e) => CErr (loc ty) e
  end.

Fixpoint ex_pat_ck_go (cx : Cx) (st : State) (ploc : Loc) (pat : AstPat) {struct pat}
    : Outcome (ValEnv * Ty * Pat) :=
  match pat with
  | APat_Wildcard =>
      let '(st, tv) := new_ty_var st false in COk st ([], Var tv, Pat_Anything)
  | APat_DecInt _ => COk st ([], Ty_INT, Pat_Lit "int")
  | APat_String _ => COk st ([], Ty_STRING, Pat_Lit "string")
  | APat_LongVid vid =>
      match ex_get_env cx vid with
      | inl (l, e) => CErr l e
      | inr env =>
          match map_get (val (lv_last vid)) (env_val_env env), lv_structures vid with
          | Some vi, _ =>
              match vi_id_status vi with
              | IdStatus_Val =>
                  let '(st, tv) := new_ty_var st false in
                  COk st ([(val (lv_last vid), ValInfo_val (TyScheme_mono (Var tv)))],
                          Var tv, Pat_Anything)
              | _ =>
                  let '(st, t) := ex_instantiate st (vi_ty_scheme vi) ploc in
                  COk st ([], t, Pat_Con (val (lv_last vid)) None)
              end
          | None, [] =>
              let '(st, tv) := new_ty_var st false in
              COk st ([(val (lv_last vid), ValInfo_val (TyScheme_mono (Var tv)))],
                      Var tv, Pat_Anything)
          | None, _ => CErr ploc (Other "undefined value")
          end
      end
  | APat_Record rows false =>
      let! (st, r) :=
        (fix go (st : State) (rows : list (Label * Located AstPat))
           : Outcome (ValEnv * list (Label * Ty) * list (Label * Pat)) :=
           match rows with
           | [] => COk st ([], [], [])
           | (lab, p) :: rows' =>
               let! (st, r) := ex_pat_ck_go cx st (loc p) (val p) in
               let '(ve, t, p') := r in
               let! (st, r') := go st rows' in
               let '(ve', ts, ps) := r' in
               let! (st, ve'') := lift st (env_merge ve ve' (loc p)) in
               COk st (ve'', (lab, t) :: ts, (lab, p') :: ps)
           end) st rows in
      let '(ve, ts, ps) := r in
      COk st (ve, Record ts, Pat_Record ps)
  | APat_Tuple pats =>
      let! (st, r) :=
        (fix go (st : State) (idx : nat) (ps : list (Located AstPat))
           : Outcome (ValEnv * list (Label * Ty) * list (Label * Pat)) :=
           match ps with
           | [] => COk st ([], [], [])
           | p :: ps' =>
               let! (st, r) := ex_pat_ck_go cx st (loc p) (val p) in
               let '(ve, t, p') := r in
               let! (st, r') := go st (S idx) ps' in
               let '(ve', ts, qs) := r' in
               let! (st, ve'') := lift st (env_merge ve ve' (loc p)) in
               COk st (ve'', (ex_tuple_lab idx, t) :: ts, (ex_tuple_lab idx, p') :: qs)
           end) st 0 pats in
      let '(ve, ts, ps) := r in
      COk st (ve, Record ts, Pat_Record ps)
  | _ => CErr ploc Todo
  end.

Definition ex_pat_ck (cx : Cx) (st : State) (pat : LPat) : Outcome (ValEnv * Ty * Pat) :=
  ex_pat_ck_go cx st (loc pat) (val pat).

Fixpoint irrefutable (p : Pat) : bool :=
  match p with
  | Pat_Anything => true
  | Pat_Record rows => forallb (fun r => irrefutable (snd r)) rows
  | _ => false
  end.

Definition ex_exhaustive_ck (dts : list (CSym * DatatypeInfo)) (ty : Ty)
    (pats : list (Located Pat)) : Res bool :=
  if existsb (fun p => irrefutable (val p)) pats then inr true else
  match ty with
  | Ctor _ sym =>
      match find (fun e => Nat.eqb (csym_idx (fst e)) (csym_idx sym)) dts with
      | Some (_, info) =>
          inr (negb (Nat.eqb (length (dt_val_env info)) 0) &&
               forallb (fun '(name, _) =>
                 existsb (fun p => match val p with
                                   | Pat_Con n None => String.eqb n name
                                   | _ => false
                                   end) pats) (dt_val_env info))
      | None => inr false
      end
  | _ => inr false
  end.

Definition ops_ex : Ops := {|
  op_unify := ex_unify;
  op_instantiate := ex_instantiate;
  op_get_env := ex_get_env;
  op_get_val_info := ex_get_val_info;
  op_tuple_lab := ex_tuple_lab;
  op_ty_ck := ex_ty_ck;
  op_pat_ck := ex_pat_ck;
  op_exhaustive_ck := ex_exhaustive_ck;
  op_apply := capply capply_depth;
  op_ty_names_subset := fun _ _ => true;
  op_generalize := fun _ _ ts => ts
|}.

(** The built-in datatypes and values the examples use. *)
Definition ex_env : Env :=
  mkEnv []
    [("bool", TyInfo_Datatype (mkCSym 0)); ("int", TyInfo_Datatype (mkCSym 2));
     ("string", TyInfo_Datatype (mkCSym 4)); ("unit", TyInfo_Alias (TyScheme_mono (Record [])))]
    [("true", ValInfo_ctor (TyScheme_mono Ty_BOOL));
     ("false", ValInfo_ctor (TyScheme_mono Ty_BOOL))].

Definition ex_cx : Cx := mkCx ex_env ["bool"; "int"; "string"; "unit"].

Definition ex_st : State :=
  mkState [] 0 10
    [(mkCSym 0, mkDatatypeInfo (TyScheme_mono Ty_BOOL)
                  [("true", ValInfo_ctor (TyScheme_mono Ty_BOOL));
                   ("false", ValInfo_ctor (TyScheme_mono Ty_BOOL))])].

(** The declaration [fun NAME () = ()]. *)
Definition fun_unit (name : StrRef) (l ln lp lb : Loc) : LDec :=
  LDec_at l (Dec_Fun [] [[(mkLocated ln name, [mkLocated lp (APat_Tuple [])], None,
                           LExp_at lb (Exp_Tuple []))]]).

(** The outcome of a check without its value: the final state, the error
    or the panic. *)
Definition outcome_shape {A : Type} (o : Outcome A) : Outcome unit :=
  match o with
  | COk st _ => COk st tt
  | CErr l e => CErr l e
  | CPanic => CPanic
  end.

(** The record expressions [{a=1,b="s"}] and [{b="s",a=1}]. *)
Definition rec_ab : LExp :=
  LExp_at (0, 13) (Exp_Record [(mkLocated (1, 2) (Label_Vid "a"), LExp_at (3, 4) (Exp_DecInt 1));
                               (mkLocated (5, 6) (Label_Vid "b"), LExp_at (7, 10) (Exp_String "s"))]).
Definition rec_ba : LExp :=
  LExp_at (0, 13) (Exp_Record [(mkLocated (1, 2) (Label_Vid "b"), LExp_at (3, 6) (Exp_String "s"));
                               (mkLocated (7, 8) (Label_Vid "a"), LExp_at (9, 10) (Exp_DecInt 1))]).

End Core.

(** ** Printing types: [impl fmt::Display for TyDisplay] of [statics/src/types.rs]

    The formatter writes into a [String], which never fails; the result is
    the text written, and [None] is a panic (an index out of bounds in
    [self.vars.inner[v.0]], or the [unwrap] in [Syms::get]). *)

(** [enum TyPrec { Arrow, Star, App }] with its derived order. *)
Inductive TyPrec : Type := Prec_Arrow | Prec_Star | Prec_App.

Definition TyPrec_rank (p : TyPrec) : nat :=
  match p with Prec_Arrow => 0 | Prec_Star => 1 | Prec_App => 2 end.

(** [a > b] on [TyPrec] *)
Definition TyPrec_gtb (a b : TyPrec) : bool := Nat.ltb (TyPrec_rank b) (TyPrec_rank a).

(** [fn equality_str(equality: bool) -> &'static str] *)
Definition equality_str (equality : bool) : string := if equality then "''" else "'".

(** [n] copies of the character [c]. *)
Fixpoint str_rep (n : nat) (c : Ascii.ascii) : string :=
  match n with
  | 0 => EmptyString
  | S n' => String c (str_rep n' c)
  end.

(** The letters written for [BoundVar(v)]: with [alpha = b'z' - b'a'],
    the character [rem + b'a'] written [quot + 1] times
    ([for _ in 0..=quot]). *)
Definition bound_var_letters (v : nat) : string :=
  let alpha := 122 - 97 in
  let quot := v / alpha in
  let rem := v mod alpha in
  str_rep (S quot) (Ascii.ascii_of_nat (rem + 97)).

(** Concatenation of two pieces of output, a panic in either being a panic. *)
Definition ocat (a b : option string) : option string :=
  match a, b with
  | Some x, Some y => Some (x ++ y)%string
  | _, _ => None
  end.

(** [if needs_parens { "(" } ... if needs_parens { ")" }] *)
Definition parens (needs_parens : bool) (s : option string) : option string :=
  if needs_parens then ocat (Some "(") (ocat s (Some ")")) else s.

(** The loop [for x in xs { f.write_str(sep)?; show(x)?; }]. *)
Definition sep_tail {A : Type} (sep : string) (show : A -> option string) : list A -> option string :=
  fix go (xs : list A) : option string :=
    match xs with
    | [] => Some EmptyString
    | x :: xs' => ocat (Some sep) (ocat (show x) (go xs'))
    end.

Section Display.
(** The [Display] of [hir::Name], of a [usize] label, of a [Uniq] meta
    variable id, and [hir::Lab::tuple], from crates that are not among the
    sources read here. *)
Variable show_name : Name -> string.
Variable show_num : nat -> string.
Variable show_uniq : nat -> string.
Variable lab_tuple : nat -> Lab.

(** [fn display_lab(f, lab)] *)
Definition display_lab (lab : Lab) : string :=
  match lab with
  | Lab_Name n => show_name n
  | Lab_Num n => show_num n
  end.

(** [is_tuple]: more than one row, and the [idx]-th label is
    [Lab::tuple(idx)]. *)
Definition is_tuple (rows : list (Lab * Ty)) : bool :=
  Nat.ltb 1 (length rows) &&
  forallb (fun e => Lab_eqb (lab_tuple (fst e)) (snd e))
          (combine (seq 0 (length rows)) (map fst rows)).

(** [TyDisplay { ty, vars, syms, prec }.fmt(f)] *)
Fixpoint ty_display (vars : TyVars) (syms : Syms) (prec : TyPrec) (t : Ty) {struct t}
    : option string :=
  match t with
  | Ty_None => Some "_"
  | Ty_BoundVar v =>
      match nth_error vars v with
      | None => None
      | Some eq => Some (equality_str eq ++ bound_var_letters v)%string
      end
  | Ty_MetaVar mv => Some (equality_str (mv_equality mv) ++ show_uniq (mv_id mv))%string
  | Ty_Record rows =>
      match rows with
      | [] => Some "unit"
      | (lab0, ty0) :: rest =>
          if is_tuple rows then
            parens (TyPrec_gtb prec Prec_Star)
              (ocat (ty_display vars syms Prec_App ty0)
                    (sep_tail " * " (fun r => ty_display vars syms Prec_App (snd r)) rest))
          else
            ocat (Some "{ ")
              (ocat (ocat (Some (display_lab lab0 ++ " : ")%string) (ty_display vars syms Prec_Arrow ty0))
                (ocat (sep_tail ", "
                         (fun r => ocat (Some (display_lab (fst r) ++ " : ")%string)
                                        (ty_display vars syms Prec_Arrow (snd r))) rest)
                      (Some " }")))
      end
  | Ty_Con args sym =>
      let args_s :=
        match args with
        | [] => Some EmptyString
        | [arg] => ocat (ty_display vars syms Prec_App arg) (Some " ")
        | arg :: rest =>
            ocat (Some "(")
              (ocat (ty_display vars syms Prec_Arrow arg)
                (ocat (sep_tail ", " (ty_display vars syms Prec_Arrow) rest) (Some ") ")))
        end in
      ocat args_s
        (match Syms_get syms sym with
         | None => None
         | Some ti => Some (show_name (ti_name ti))
         end)
  | Ty_Fn param res =>
      parens (TyPrec_gtb prec Prec_Arrow)
        (ocat (ty_display vars syms Prec_Star param)
              (ocat (Some " -> ") (ty_display vars syms Prec_Arrow res)))
  end.

(** [TyScheme::display(&self, syms)] *)
Definition TyScheme_display (ts : TyScheme) (syms : Syms) : option string :=
  ty_display (ts_vars ts) syms Prec_Arrow (ts_ty ts).
End Display.

(** Whether printing cannot panic: every bound variable is in range of
    the scheme's variables and every symbol is in the table. *)
Fixpoint displayable (vars : TyVars) (syms : Syms) (t : Ty) : bool :=
  match t with
  | Ty_None | Ty_MetaVar _ => true
  | Ty_BoundVar v => Nat.ltb v (length vars)
  | Ty_Record rows => forallb (fun r => displayable vars syms (snd r)) rows
  | Ty_Con args sym =>
      forallb (displayable vars syms) args &&
      match Syms_get syms sym with Some _ => true | None => false end
  | Ty_Fn p r => displayable vars syms p && displayable vars syms r
  end.

(** Whether a piece of output was produced, i.e. printing did not panic. *)
Definition is_some {A : Type} (o : option A) : bool :=
  match o with Some _ => true | None => false end.

(** ** More of [sml-statics/src/st.rs] *)

(** [St::new(mode, syms)]: the mode lives in the [Info], which [finish]
    only carries along. *)
Definition St_new (syms : Syms) : St :=
  mkSt [] [] 0 0 (mkInfo [] []) [] [] syms.

(** [St::insert_hole] *)
Definition St_insert_hole (st : St) (mv : MetaTyVar) (idx : Idx) : St :=
  {| st_subst := st_subst st; st_errors := st_errors st;
     st_meta_gen := st_meta_gen st; st_fixed_gen := st_fixed_gen st;
     st_info := st_info st; st_matches := st_matches st;
     st_holes := st_holes st ++ [(mv, idx)]; st_syms := st_syms st |}.

(** ** Results of [ty::get] *)

(** Whether a type mentions neither a meta variable nor a bound variable. *)
Fixpoint no_ty_vars (t : Ty) : bool :=
  match t with
  | Ty_None => true
  | Ty_BoundVar _ | Ty_MetaVar _ => false
  | Ty_Record rows => forallb (fun r => no_ty_vars (snd r)) rows
  | Ty_Con args _ => forallb no_ty_vars args
  | Ty_Fn p r => no_ty_vars p && no_ty_vars r
  end.

(** A nested induction principle for [hir::Pat]. *)
Section HPatInd.
Variable P : HPat -> Prop.
Hypothesis H_None : forall idx, P (HPat_None idx).
Hypothesis H_Wild : forall idx, P (HPat_Wild idx).
Hypothesis H_SCon : forall idx scon, P (HPat_SCon idx scon).
Hypothesis H_Con : forall idx path arg,
  match arg with Some a => P a | None => True end -> P (HPat_Con idx path arg).
Hypothesis H_Record : forall idx rows allows_other,
  Forall (fun r => P (snd r)) rows -> P (HPat_Record idx rows allows_other).
Hypothesis H_Typed : forall idx p want, P p -> P (HPat_Typed idx p want).
Hypothesis H_As : forall idx name p, P p -> P (HPat_As idx name p).

Fixpoint HPat_ind' (p : HPat) : P p :=
  match p with
  | HPat_None idx => H_None idx
  | HPat_Wild idx => H_Wild idx
  | HPat_SCon idx scon => H_SCon idx scon
  | HPat_Con idx path arg =>
      H_Con idx path arg
        (match arg as a return match a with Some a => P a | None => True end with
         | Some a => HPat_ind' a
         | None => I
         end)
  | HPat_Record idx rows ao =>
      H_Record idx rows ao
        ((fix go (rs : list (Lab * HPat)) : Forall (fun r => P (snd r)) rs :=
            match rs with
            | [] => Forall_nil _
            | r :: rs' => Forall_cons r (HPat_ind' (snd r)) (go rs')
            end) rows)
  | HPat_Typed idx p' want => H_Typed idx p' want (HPat_ind' p')
  | HPat_As idx name p' => H_As idx name p' (HPat_ind' p')
  end.
End HPatInd.

(** Whether [pat::get] reaches neither [todo!()]: no record pattern with
    [...], and no type variable in a type annotation. *)
Fixpoint hpat_supported (p : HPat) : bool :=
  match p with
  | HPat_None _ | HPat_Wild _ | HPat_SCon _ _ => true
  | HPat_Con _ _ arg => match arg with Some a => hpat_supported a | None => true end
  | HPat_Record _ rows ao => negb ao && forallb (fun r => hpat_supported (snd r)) rows
  | HPat_Typed _ p want => hpat_supported p && hty_no_var want
  | HPat_As _ _ p => hpat_supported p
  end.

(** * Facts about the symbol table, the substitution and [St::finish] *)


(** ** The symbol table *)

Lemma Syms_insert_all_spec (syms : Syms) (infos : list TyInfo) :
  store (fst (Syms_insert_all syms infos)) = store syms ++ infos /\
  map sym_idx (snd (Syms_insert_all syms infos)) = seq (length (store syms)) (length infos).
Proof.
  revert syms; induction infos as [|ti rest IH]; intros syms; simpl.
  - rewrite app_nil_r. auto.
  - destruct (Syms_insert_all (mkSyms (store syms ++ [ti])) rest) as [syms2 out] eqn:E.
    specialize (IH (mkSyms (store syms ++ [ti]))). rewrite E in IH. simpl in *.
    destruct IH as [H1 H2]. rewrite H1, <- app_assoc. split; [reflexivity|].
    rewrite H2, length_app. simpl. f_equal. f_equal. lia.
Qed.

Lemma Syms_insert_all_get (syms : Syms) (infos : list TyInfo) :
  Forall2 (fun sym ti => Syms_get (fst (Syms_insert_all syms infos)) sym = Some ti)
          (snd (Syms_insert_all syms infos)) infos.
Proof.
  revert syms; induction infos as [|ti rest IH]; intros syms; simpl; [constructor|].
  pose proof (Syms_insert_all_spec (mkSyms (store syms ++ [ti])) rest) as [H1 _].
  specialize (IH (mkSyms (store syms ++ [ti]))).
  destruct (Syms_insert_all (mkSyms (store syms ++ [ti])) rest) as [syms2 out] eqn:E.
  simpl in *. constructor; [|exact IH].
  unfold Syms_get. rewrite H1. simpl.
  rewrite <- app_assoc, nth_error_app2 by lia. rewrite Nat.sub_diag. reflexivity.
Qed.

Lemma map_opt_length {A B : Type} (f : A -> option B) (l : list A) (l' : list B) :
  map_opt f l = Some l' -> length l' = length l.
Proof.
  revert l'; induction l as [|x l IH]; intros l' H; simpl in H.
  - injection H as <-. reflexivity.
  - destruct (f x), (map_opt f l) eqn:E; try discriminate.
    injection H as <-. simpl. rewrite (IH l0 eq_refl). reflexivity.
Qed.

Lemma apply_Con (fuel : nat) (s : Subst) (args : list Ty) (sym : Sym) (w : Ty) :
  apply fuel s (Ty_Con args sym) = Some w -> exists args', w = Ty_Con args' sym.
Proof.
  destruct fuel as [|f]; simpl; [discriminate|].
  destruct (map_opt _ args) as [args'|]; simpl; [|discriminate].
  intros H; injection H as <-. eauto.
Qed.

(** The unifier never succeeds on two type constructors whose symbols
    differ. *)
Lemma unify_Con_distinct (fuel : nat) (s : Subst) (a1 a2 : list Ty) (x y : Sym)
    (r : Subst + UnifyError) :
  sym_idx x <> sym_idx y ->
  unify fuel s (Ty_Con a1 x) (Ty_Con a2 y) = Some r -> exists e, r = inr e.
Proof.
  intros Hxy H. destruct fuel as [|f]; [discriminate|].
  unfold unify in H; fold unify in H.
  destruct (apply (S f) s (Ty_Con a1 x)) as [w|] eqn:Ew; [|discriminate].
  destruct (apply (S f) s (Ty_Con a2 y)) as [g|] eqn:Eg; [|discriminate].
  apply apply_Con in Ew as [a1' ->]. apply apply_Con in Eg as [a2' ->].
  unfold Sym_eqb in H. apply Nat.eqb_neq in Hxy. rewrite Hxy in H.
  injection H as <-. eauto.
Qed.

(** ** Applying the substitution *)

Lemma map_opt_Forall2 {A B : Type} (f : A -> option B) (l : list A) (l' : list B) :
  map_opt f l = Some l' -> Forall2 (fun x y => f x = Some y) l l'.
Proof.
  revert l'; induction l as [|x l IH]; intros l' H; simpl in H.
  - injection H as <-. constructor.
  - destruct (f x) eqn:Ex, (map_opt f l) eqn:E; try discriminate.
    injection H as <-. constructor; auto.
Qed.

Lemma map_opt_id {A : Type} (f : A -> option A) (l : list A) :
  Forall (fun x => f x = Some x) l -> map_opt f l = Some l.
Proof.
  induction 1 as [|x l Hx _ IH]; simpl; [reflexivity|].
  rewrite Hx, IH. reflexivity.
Qed.

(** A resolved type is left as it is by the walk. *)
Lemma apply_resolved (f : nat) (s : Subst) (t : Ty) :
  resolved s t = true -> apply (S f) s t = Some t.
Proof.
  induction t as [| v | mv | rows IH | args sym IH | p r IHp IHr] using Ty_ind';
    simpl; intros H; try reflexivity.
  - destruct (subst_get s (mv_id mv)) as [[t'|]|]; [discriminate|reflexivity|reflexivity].
  - rewrite map_opt_id; [reflexivity|].
    rewrite forallb_forall in H.
    induction IH as [|[l t] rs Ht _ IHrs]; constructor.
    + simpl in *. specialize (Ht (H _ (or_introl eq_refl))). simpl in Ht. now rewrite Ht.
    + apply IHrs. intros x Hx. apply H. now right.
  - rewrite map_opt_id; [reflexivity|].
    rewrite forallb_forall in H.
    induction IH as [|t ts Ht _ IHts]; constructor.
    + simpl in Ht. apply Ht, H. now left.
    + apply IHts. intros x Hx. apply H. now right.
  - apply andb_true_iff in H as [Hp Hr].
    simpl in IHp, IHr. rewrite (IHp Hp), (IHr Hr). reflexivity.
Qed.

(** Every result of the walk is resolved. *)
Lemma apply_result_resolved (fuel : nat) (s : Subst) (t t' : Ty) :
  apply fuel s t = Some t' -> resolved s t' = true.
Proof.
  revert t t'; induction fuel as [|f IHf]; intros t; [discriminate|].
  induction t as [| v | mv | rows IH | args sym IH | p r IHp IHr] using Ty_ind';
    simpl; intros t' H.
  - injection H as <-. reflexivity.
  - injection H as <-. reflexivity.
  - destruct (subst_get s (mv_id mv)) as [[t''|]|] eqn:E.
    + exact (IHf _ _ H).
    + injection H as <-. simpl. now rewrite E.
    + injection H as <-. simpl. now rewrite E.
  - destruct (map_opt _ rows) as [rows'|] eqn:E; simpl in H; [|discriminate].
    injection H as <-. simpl. apply forallb_forall. intros [l u] Hin.
    apply map_opt_Forall2 in E.
    induction E as [|[l0 t0] [l1 t1] rs rs' Hx _ IHE]; [destruct Hin|].
    inversion IH as [|? ? IH0 IHrest]; subst.
    destruct Hin as [Heq|Hin].
    + simpl in Hx. destruct (_ t0) as [t0'|] eqn:E0 in Hx; simpl in Hx; [|discriminate].
      injection Hx as <- <-. injection Heq as <- <-. exact (IH0 _ E0).
    + exact (IHE IHrest Hin).
  - destruct (map_opt _ args) as [args'|] eqn:E; simpl in H; [|discriminate].
    injection H as <-. simpl. apply forallb_forall. intros u Hin.
    apply map_opt_Forall2 in E.
    induction E as [|t0 t1 ts ts' Hx _ IHE]; [destruct Hin|].
    inversion IH as [|? ? IH0 IHrest]; subst.
    destruct Hin as [<-|Hin].
    + exact (IH0 _ Hx).
    + exact (IHE IHrest Hin).
  - destruct (_ p) as [p'|] eqn:Ep; [|discriminate].
    destruct (_ r) as [r'|] eqn:Er; [|discriminate].
    injection H as <-. simpl. rewrite (IHp _ Ep), (IHr _ Er). reflexivity.
Qed.

(** ** [St::finish] *)

Lemma sort_by_raw_perm (xs : list nat) : Permutation (sort_by_raw xs) xs.
Proof.
  assert (Hins : forall x l, Permutation (insert_sorted x l) (x :: l)).
  { intros x l; induction l as [|y l IH]; simpl; [reflexivity|].
    destruct (Nat.leb x y); [reflexivity|].
    rewrite IH. apply perm_swap. }
  induction xs as [|x xs IH]; simpl; [reflexivity|].
  rewrite Hins, IH. reflexivity.
Qed.

Lemma sort_by_raw_sorted (xs : list nat) : Sorted le (sort_by_raw xs).
Proof.
  assert (Hins : forall x l, Sorted le l -> Sorted le (insert_sorted x l)).
  { intros x l H; induction H as [|y l Hl IH Hhd]; simpl.
    - repeat constructor.
    - destruct (Nat.leb x y) eqn:E.
      + apply Nat.leb_le in E. repeat constructor; auto.
      + apply Nat.leb_gt in E. constructor; [exact IH|].
        destruct l as [|z l]; simpl.
        * constructor. lia.
        * inversion Hhd; subst. destruct (Nat.leb x z); constructor; [lia|assumption]. }
  induction xs as [|x xs IH]; simpl; [constructor|].
  apply Hins, IH.
Qed.

Lemma get_match_app (check : Lang -> list Pat -> Ty -> option Check)
    (errors : list Error) (lang : Lang) (pats : list Pat) (ty : Ty) :
  get_match check errors lang pats ty =
  (errors ++ fst (get_match check [] lang pats ty), snd (get_match check [] lang pats ty)).
Proof.
  unfold get_match. destruct (check lang pats ty); simpl; rewrite ?app_nil_r; reflexivity.
Qed.

Lemma finish_match_app (apply_ty : Subst -> Ty -> Ty)
    (check : Lang -> list Pat -> Ty -> option Check)
    (lang : Lang) (subst : Subst) (errors : list Error) (m : Match) :
  finish_match apply_ty check lang subst errors m =
  errors ++ finish_match apply_ty check lang subst [] m.
Proof.
  unfold finish_match.
  destruct (m_kind m) as [pat|pats|pats];
    rewrite (get_match_app check errors);
    destruct (get_match check [] lang _ _) as [e0 ms]; simpl; try reflexivity;
    destruct ms; rewrite ?app_assoc; reflexivity.
Qed.

Lemma fold_finish_match (apply_ty : Subst -> Ty -> Ty)
    (check : Lang -> list Pat -> Ty -> option Check)
    (lang : Lang) (subst : Subst) (ms : list Match) (errors : list Error) :
  fold_left (finish_match apply_ty check lang subst) ms errors =
  errors ++ List.concat (map (finish_match apply_ty check lang subst []) ms).
Proof.
  revert errors; induction ms as [|m ms IH]; intros errors; simpl.
  - now rewrite app_nil_r.
  - rewrite IH, finish_match_app, app_assoc. reflexivity.
Qed.

Lemma fold_holes (apply_ty : Subst -> Ty -> Ty) (subst : Subst)
    (holes : list (MetaTyVar * Idx)) (errors : list Error) :
  fold_left (fun errs '(mv, idx) =>
      errs ++ [mkError idx (EK_ExpHole (apply_ty subst (Ty_MetaVar mv)))]) holes errors =
  errors ++ map (fun h => let '(mv, idx) := h in
                 mkError idx (EK_ExpHole (apply_ty subst (Ty_MetaVar mv)))) holes.
Proof.
  revert errors; induction holes as [|[mv idx] holes IH]; intros errors; simpl.
  - now rewrite app_nil_r.
  - rewrite IH, <- app_assoc. reflexivity.
Qed.

(** ** Properties of the symbol table, [St::finish] and the substitution *)

(** C1: a run of [Syms::insert] calls on one table only appends to the
    store, returns the symbols [len, len+1, ...] (pairwise distinct, and
    distinct from every symbol [0 .. len-1] handed out before), each symbol
    looks up the info it was minted for, and the unifier never succeeds on
    two type constructors whose symbols are two distinct minted symbols. *)
Theorem syms_insert_generative (syms : Syms) (infos : list TyInfo) :
  let '(syms', out) := Syms_insert_all syms infos in
  store syms' = store syms ++ infos /\
  map sym_idx out = seq (length (store syms)) (length infos) /\
  NoDup out /\
  (forall sym, In sym out -> length (store syms) <= sym_idx sym) /\
  Forall2 (fun sym ti => Syms_get syms' sym = Some ti) out infos /\
  (forall a b, In a out -> In b out -> a <> b ->
   forall fuel subst args1 args2 r,
   unify fuel subst (Ty_Con args1 a) (Ty_Con args2 b) = Some r -> exists e, r = inr e).
Proof.
  destruct (Syms_insert_all syms infos) as [syms' out] eqn:E.
  pose proof (Syms_insert_all_spec syms infos) as [H1 H2]. rewrite E in H1, H2. simpl in H1, H2.
  assert (Hidx : forall a b, In a out -> In b out -> a <> b -> sym_idx a <> sym_idx b).
  { intros [a] [b] _ _ Hab Heq. simpl in Heq. subst. contradiction. }
  assert (Hnd : NoDup out).
  { apply (NoDup_map_inv sym_idx). rewrite H2. apply seq_NoDup. }
  assert (Hge : forall sym, In sym out -> length (store syms) <= sym_idx sym).
  { intros sym Hin. apply (in_map sym_idx) in Hin. rewrite H2 in Hin.
    apply in_seq in Hin. lia. }
  repeat split; auto.
  - pose proof (Syms_insert_all_get syms infos) as HG. rewrite E in HG. exact HG.
  - intros a b Ha Hb Hab fuel subst args1 args2 r.
    apply unify_Con_distinct. exact (Hidx a b Ha Hb Hab).
Qed.

(** C3: for a case over booleans whose only arm is [true], [finish]
    reports exactly one error, a non-exhaustive case whose single missing
    pattern is [false], and no unreachable arm; with the arms [true],
    [false], [true], it reports exactly the third arm as unreachable and no
    missing pattern. The symbol table is the default one extended by
    appends, the match is the only deferred one and there are no holes. *)
Theorem bool_case_scenarios (apply_ty : Subst -> Ty -> Ty) (st : St) (rest : list TyInfo)
    (i j k : nat) (want : Ty) (idx : Idx)
    (Hsyms : store (st_syms st) = store Syms_default ++ rest)
    (Hholes : st_holes st = []) :
  (st_matches st = [mkMatch (MK_Case [pat_true i]) want idx] ->
   snd (fst (finish apply_ty check st)) =
   st_errors st ++ [mkError idx (EK_NonExhaustiveCase [mkPat (Con_Variant Sym_BOOL "false") [] None])]) /\
  (st_matches st = [mkMatch (MK_Case [pat_true i; pat_false j; pat_true k]) want idx] ->
   snd (fst (finish apply_ty check st)) =
   st_errors st ++ [mkError (Idx_Pat k) EK_UnreachablePattern]).
Proof.
  destruct st as [subst errs mg fg info ms holes [store0]]; simpl in *. subst.
  split; intros ->; unfold finish; cbn -[finish_match]; rewrite finish_match_app; f_equal;
    vm_compute; reflexivity.
Qed.

(** Witness of C3: a state whose only obligation is [case b of true => ...]. *)
Lemma bool_case_scenarios_witness :
  snd (fst (finish (fun _ t => t) check
    (mkSt [] [] 0 0 (mkInfo [] []) [mkMatch (MK_Case [pat_true 0]) (Ty_zero Sym_BOOL) (Idx_Exp 7)] []
          Syms_default))) =
  [mkError (Idx_Exp 7) (EK_NonExhaustiveCase [mkPat (Con_Variant Sym_BOOL "false") [] None])].
Proof.
  destruct (bool_case_scenarios (fun _ t => t)
    (mkSt [] [] 0 0 (mkInfo [] []) [mkMatch (MK_Case [pat_true 0]) (Ty_zero Sym_BOOL) (Idx_Exp 7)] []
          Syms_default) [] 0 1 2 (Ty_zero Sym_BOOL) (Idx_Exp 7)) as [H _].
  - reflexivity.
  - reflexivity.
  - exact (H eq_refl).
Defined.

(** C5: a handle obligation adds one unreachable-pattern error for each
    unreachable arm its check finds, and nothing else: it never reports a
    non-exhaustive match, whatever the missing patterns; while a case or a
    binding obligation whose check returns a non-empty set of missing
    patterns always reports a non-exhaustive error for it. *)
Theorem handle_never_nonexhaustive (apply_ty : Subst -> Ty -> Ty)
    (check : Lang -> list Pat -> Ty -> option Check)
    (lang : Lang) (subst : Subst) (errors : list Error) (want : Ty) (idx : Idx) :
  (forall pats,
   exists unreachable,
   finish_match apply_ty check lang subst errors (mkMatch (MK_Handle pats) want idx) =
   errors ++ map (fun i => mkError (Idx_Pat i) EK_UnreachablePattern) unreachable /\
   match check lang pats (apply_ty subst want) with
   | Some ck => Permutation unreachable (flatten_opt (ck_unreachable ck))
   | None => unreachable = []
   end) /\
  (forall pats ck,
   check lang pats (apply_ty subst want) = Some ck -> ck_missing ck <> [] ->
   In (mkError idx (EK_NonExhaustiveCase (ck_missing ck)))
      (finish_match apply_ty check lang subst errors (mkMatch (MK_Case pats) want idx))) /\
  (forall pat ck,
   check lang [pat] (apply_ty subst want) = Some ck -> ck_missing ck <> [] ->
   In (mkError idx (EK_NonExhaustiveBinding (ck_missing ck)))
      (finish_match apply_ty check lang subst errors (mkMatch (MK_Bind pat) want idx))).
Proof.
  split; [|split].
  - intros pats. unfold finish_match, get_match; simpl.
    destruct (check lang pats (apply_ty subst want)) as [ck|]; simpl.
    + exists (sort_by_raw (flatten_opt (ck_unreachable ck))).
      split; [reflexivity|apply sort_by_raw_perm].
    + exists []. rewrite app_nil_r. auto.
  - intros pats ck Hck Hm. unfold finish_match, get_match; simpl. rewrite Hck.
    destruct (ck_missing ck); [contradiction|]. apply in_or_app. right. now left.
  - intros pat ck Hck Hm. unfold finish_match, get_match; simpl. rewrite Hck.
    destruct (ck_missing ck); [contradiction|]. apply in_or_app. right. now left.
Qed.

(** C6: the errors of [finish] are the recorded errors, then the holes,
    then the errors of each deferred match in insertion order; within one
    match, the unreachable arms are reported in ascending order of their
    raw pattern index (and they are exactly the unreachable arms found by
    the check). *)
Theorem finish_report_order (apply_ty : Subst -> Ty -> Ty)
    (check : Lang -> list Pat -> Ty -> option Check) (st : St) :
  snd (fst (finish apply_ty check st)) =
  st_errors st ++
  map (fun h => let '(mv, idx) := h in
       mkError idx (EK_ExpHole (apply_ty (st_subst st) (Ty_MetaVar mv)))) (st_holes st) ++
  List.concat (map (finish_match apply_ty check (mkLang (st_syms st)) (st_subst st) [])
                   (st_matches st)) /\
  (forall errors lang pats ty,
   exists unreachable,
   fst (get_match check errors lang pats ty) =
   errors ++ map (fun i => mkError (Idx_Pat i) EK_UnreachablePattern) unreachable /\
   Sorted le unreachable /\
   match check lang pats ty with
   | Some ck => Permutation unreachable (flatten_opt (ck_unreachable ck))
   | None => unreachable = []
   end).
Proof.
  split.
  - unfold finish; simpl. rewrite fold_finish_match, fold_holes, app_assoc. reflexivity.
  - intros errors lang pats ty. unfold get_match.
    destruct (check lang pats ty) as [ck|]; simpl.
    + exists (sort_by_raw (flatten_opt (ck_unreachable ck))).
      split; [reflexivity|]. split; [apply sort_by_raw_sorted|apply sort_by_raw_perm].
    + exists []. rewrite app_nil_r. repeat split. constructor.
Qed.

(** C8: applying the substitution to a type in which no meta variable is
    resolved by it, in particular to any result of applying it, gives the
    type back unchanged. *)
Theorem apply_idempotent (fuel f : nat) (s : Subst) (t t' : Ty)
    (H : apply fuel s t = Some t' \/ resolved s t' = true) :
  apply (S f) s t' = Some t'.
Proof.
  apply apply_resolved. destruct H as [H|H]; [exact (apply_result_resolved _ _ _ _ H)|exact H].
Qed.

(** Witness of C8: a meta variable resolved to [bool], applied once and
    then again. *)
Lemma apply_idempotent_witness :
  apply 3 [(0, Solved (Ty_zero Sym_BOOL))] (Ty_MetaVar (mkMetaTyVar 0 false)) = Some (Ty_zero Sym_BOOL) /\
  apply 1 [(0, Solved (Ty_zero Sym_BOOL))] (Ty_zero Sym_BOOL) = Some (Ty_zero Sym_BOOL).
Proof.
  split.
  - vm_compute. reflexivity.
  - apply (apply_idempotent 3 0 [(0, Solved (Ty_zero Sym_BOOL))] (Ty_MetaVar (mkMetaTyVar 0 false))).
    left. vm_compute. reflexivity.
Defined.

(** ** Type annotations and patterns of the arena checker *)

Lemma record_rows_done {S X : Type} (s_err : S -> SError -> S) (f : S -> Lab -> X -> Ret (S * Ty))
    (R : S -> S -> Prop) (Hrefl : forall x, R x x)
    (Htrans : forall x y z, R x y -> R y z -> R x z)
    (Herr : forall x e, R x (s_err x e)) (rows : list (Lab * X)) :
  Forall (fun r => forall st, exists st' t, f st (fst r) (snd r) = Done (st', t) /\ R st st') rows ->
  forall st acc, exists st' m, record_rows s_err f st rows acc = Done (st', m) /\ R st st'.
Proof.
  induction 1 as [|[lab x] rows Hx _ IH]; intros st acc; simpl.
  - exists st, acc. auto.
  - destruct (Hx st) as (st1 & t & Hf & HR). simpl in Hf. rewrite Hf.
    destruct (existsb _ acc).
    + destruct (IH (s_err st1 (SE_DuplicateLab lab)) acc) as (st2 & m & H2 & HR2).
      exists st2, m. split; [exact H2|]. eauto.
    + destruct (IH st1 (btree_insert lab t acc)) as (st2 & m & H2 & HR2).
      exists st2, m. split; [exact H2|]. eauto.
Qed.

Definition errors_grow (st st' : SSt) : Prop :=
  exists extra, sst_errors st' = sst_errors st ++ extra.

Lemma errors_grow_refl (st : SSt) : errors_grow st st.
Proof. exists []. now rewrite app_nil_r. Qed.

Lemma errors_grow_trans (a b c : SSt) : errors_grow a b -> errors_grow b c -> errors_grow a c.
Proof. intros [x Hx] [y Hy]. exists (x ++ y). now rewrite Hy, Hx, app_assoc. Qed.

Lemma errors_grow_err (st : SSt) (e : SError) : errors_grow st (SSt_err st e).
Proof. exists [e]. reflexivity. Qed.

Lemma ty_get_done (cx : Cx) (t : HTy) :
  hty_no_var t = true ->
  forall st, exists st' ty, ty_get st cx t = Done (st', ty) /\ errors_grow st st'.
Proof.
  induction t as [| v | rows IH | args path IH | p r IHp IHr] using HTy_ind';
    simpl; intros Hnv st.
  - exists st, Ty_None. split; [reflexivity|apply errors_grow_refl].
  - discriminate.
  - unfold record.
    destruct (record_rows_done SSt_err (fun st _ t => ty_get st cx t) errors_grow
                errors_grow_refl errors_grow_trans errors_grow_err rows) with (st := st) (acc := @nil (Lab * Ty))
      as (st' & m & H & HR).
    + rewrite forallb_forall in Hnv.
      induction IH as [|[l t] rs Ht _ IHrs]; constructor.
      * simpl in *. apply Ht. exact (Hnv _ (or_introl eq_refl)).
      * apply IHrs. intros y Hy. apply Hnv. now right.
    + rewrite H. exists st', (Ty_Record m). auto.
  - destruct (get_env (cx_env cx) (path_structures path)) as [env|].
    2: { eexists _, _. split; [reflexivity|apply errors_grow_err]. }
    destruct (assoc_get (path_last path) (env_ty_env env)) as [sym|].
    2: { eexists _, _. split; [reflexivity|apply errors_grow_err]. }
    rewrite forallb_forall in Hnv.
    assert (Hgo : forall st,
      exists st' ts,
      (fix go (st : SSt) (args : list HTy) : Ret (SSt * list Ty) :=
         match args with
         | [] => Done (st, [])
         | a :: rest =>
             match ty_get st cx a with
             | Panic => Panic
             | Done (st1, t) =>
                 match go st1 rest with
                 | Panic => Panic
                 | Done (st2, ts) => Done (st2, t :: ts)
                 end
             end
         end) st args = Done (st', ts) /\ errors_grow st st').
    { induction IH as [|a rest Ha _ IHr]; intros st0.
      - exists st0, []. split; [reflexivity|apply errors_grow_refl].
      - destruct (Ha (Hnv _ (or_introl eq_refl)) st0) as (st1 & t & Ht & HR1). rewrite Ht.
        destruct (IHr (fun y Hy => Hnv y (or_intror Hy)) st1) as (st2 & ts & Hts & HR2).
        rewrite Hts. exists st2, (t :: ts). split; [reflexivity|]. eauto using errors_grow_trans. }
    destruct (Hgo st) as (st' & ts & Hts & HR). rewrite Hts.
    exists st', (Ty_Con ts sym). auto.
  - apply andb_true_iff in Hnv as [Hp Hr].
    destruct (IHp Hp st) as (st1 & p' & H1 & HR1). rewrite H1.
    destruct (IHr Hr st1) as (st2 & r' & H2 & HR2). rewrite H2.
    exists st2, (Ty_Fn p' r'). split; [reflexivity|]. eauto using errors_grow_trans.
Qed.

(** C2: [ty::get] never panics on a HIR type without type variables: an
    unresolved type name, whether a structure of its path is missing or
    its last name is not in the type environment the path leads to, is
    recorded as [Undefined] and [Ty::None] stands in for the type, and the
    errors only grow; but it panics ([todo!()]) on a type variable, and
    [pat::get] panics ([todo!()]) on a record pattern with [...], whatever
    the state, context and helpers. *)
Theorem ty_get_failure_locality :
  (forall st cx t, hty_no_var t = true ->
   exists st' ty extra, ty_get st cx t = Done (st', ty) /\ sst_errors st' = sst_errors st ++ extra) /\
  (forall st cx args path,
   (get_env (cx_env cx) (path_structures path) = None \/
    exists env, get_env (cx_env cx) (path_structures path) = Some env /\
                assoc_get (path_last path) (env_ty_env env) = None) ->
   ty_get st cx (HTy_Con args path) = Done (SSt_err st SE_Undefined, Ty_None)) /\
  (forall st cx v, ty_get st cx (HTy_Var v) = Panic) /\
  (forall instantiate unify_st apply_st st cx idx rows,
   pat_get instantiate unify_st apply_st st cx (HPat_Record idx rows true) = Panic).
Proof.
  split; [|split; [|split]].
  - intros st cx t Hnv. destruct (ty_get_done cx t Hnv st) as (st' & ty & H & extra & He).
    exists st', ty, extra. auto.
  - intros st cx args path [H|(env & H & Hl)]; simpl; rewrite H; [reflexivity|]. now rewrite Hl.
  - reflexivity.
  - reflexivity.
Qed.

(** C2: the counterexample: [ty::get] on the type variable ['a] panics. *)
Lemma ty_get_var_panics :
  ty_get (mkSSt [] 0 []) (mkCx (mkEnv [] [] [])) (HTy_Var "'a") = Panic.
Proof. reflexivity. Qed.

(** * Facts about the core declaration checker *)
Module CoreFacts.
Import Core.

Lemma for_each_nil {A B : Type} (st : State) (acc : B) (body : State -> B -> A -> Outcome B) :
  for_each st [] acc body = COk st acc.
Proof. reflexivity. Qed.

Lemma for_each_cons {A B : Type} (st : State) (x : A) (xs : list A) (acc : B)
    (body : State -> B -> A -> Outcome B) :
  for_each st (x :: xs) acc body = obind (body st acc x) (fun st1 acc1 => for_each st1 xs acc1 body).
Proof. unfold for_each. simpl. destruct (body st acc x); reflexivity. Qed.

Lemma for_each_app {A B : Type} (st : State) (xs ys : list A) (acc : B)
    (body : State -> B -> A -> Outcome B) :
  for_each st (xs ++ ys) acc body =
  obind (for_each st xs acc body) (fun st1 acc1 => for_each st1 ys acc1 body).
Proof.
  revert st acc; induction xs as [|x xs IH]; intros st acc.
  - reflexivity.
  - rewrite <- app_comm_cons, !for_each_cons. destruct (body st acc x); cbn [obind]; auto.
Qed.

Lemma obind_assoc {A B C : Type} (m : Outcome A) (k1 : State -> A -> Outcome B)
    (k2 : State -> B -> Outcome C) :
  obind (obind m k1) k2 = obind m (fun st a => obind (k1 st a) k2).
Proof. destruct m; reflexivity. Qed.

Lemma Label_eqb_eq (a b : Label) : Label_eqb a b = true <-> a = b.
Proof.
  destruct a as [x|x], b as [y|y]; simpl; split; intros H; try discriminate.
  - apply String.eqb_eq in H. now subst.
  - injection H as ->. apply String.eqb_refl.
  - apply Nat.eqb_eq in H. now subst.
  - injection H as ->. apply Nat.eqb_refl.
Qed.

Lemma existsb_Label_eqb (x : Label) (keys : list Label) :
  existsb (Label_eqb x) keys = true <-> In x keys.
Proof.
  rewrite existsb_exists. split.
  - intros (y & Hy & E). apply Label_eqb_eq in E. now subst.
  - intros H. exists x. split; [exact H|]. now apply Label_eqb_eq.
Qed.

(** The loop body of the [Exp::Record] arm. *)
Section RecordLoop.
Variable ck_row : State -> LExp -> Outcome Ty.
Variable body : State -> list (Label * Ty) * list Label -> Located Label * LExp
                -> Outcome (list (Label * Ty) * list Label).
Hypothesis Hbody : forall st ty_rows keys lab exp,
  body st (ty_rows, keys) (lab, exp) =
  obind (ck_row st exp) (fun st ty =>
    if existsb (Label_eqb (val lab)) keys
    then err (loc lab) (DuplicateLabel (val lab))
    else COk st (ty_rows ++ [(val lab, ty)], keys ++ [val lab])).

Lemma record_loop_ok (rows : list (Located Label * LExp)) :
  forall st ty_rows keys st' res,
  for_each st rows (ty_rows, keys) body = COk st' res ->
  NoDup keys ->
  exists tys,
    fst res = ty_rows ++ combine (map (fun r => val (fst r)) rows) tys /\
    length tys = length rows /\
    snd res = keys ++ map (fun r => val (fst r)) rows /\
    NoDup (keys ++ map (fun r => val (fst r)) rows).
Proof.
  induction rows as [|[lab exp] rows IH]; intros st ty_rows keys st' res H Hnd.
  - rewrite for_each_nil in H. injection H as <- <-. exists [].
    simpl. rewrite !app_nil_r. auto.
  - rewrite for_each_cons, Hbody, obind_assoc in H.
    destruct (ck_row st exp) as [st1 ty| |]; simpl in H; try discriminate.
    destruct (existsb (Label_eqb (val lab)) keys) eqn:E; simpl in H; [discriminate|].
    assert (Hnd' : NoDup (keys ++ [val lab])).
    { apply NoDup_app; auto using NoDup_cons, NoDup_nil.
      intros x Hx [<-|[]]. apply existsb_Label_eqb in Hx. congruence. }
    destruct (IH _ _ _ _ _ H Hnd') as (tys & H1 & H2 & H3 & H4).
    exists (ty :: tys). simpl. rewrite <- !app_assoc in *. simpl in *.
    repeat split; auto.
Qed.

Lemma record_loop_dup (pre : list (Located Label * LExp)) (lab : Located Label) (e : LExp)
    (post : list (Located Label * LExp)) (st : State) :
  (exists st1 tys,
     for_each st (pre ++ [(lab, e)]) [] (fun st tys r =>
       obind (ck_row st (snd r)) (fun st ty => COk st (tys ++ [ty]))) = COk st1 tys) ->
  NoDup (map (fun r => val (fst r)) pre) ->
  In (val lab) (map (fun r => val (fst r)) pre) ->
  for_each st (pre ++ (lab, e) :: post) ([], []) body = CErr (loc lab) (DuplicateLabel (val lab)).
Proof.
  intros (stf & tysf & Hok) Hnd Hin.
  set (rb := fun st tys (r : Located Label * LExp) =>
         obind (ck_row st (snd r)) (fun st ty => COk st (tys ++ [ty]))) in *.
  (* The rows before [lab] run as in the plain row checks, to the same state. *)
  assert (Hrun : forall pre' ty_rows keys st tys0 st1 tys1,
    for_each st pre' tys0 rb = COk st1 tys1 ->
    NoDup (keys ++ map (fun r => val (fst r)) pre') ->
    exists ty_rows',
    for_each st pre' (ty_rows, keys) body = COk st1 (ty_rows', keys ++ map (fun r => val (fst r)) pre')).
  { induction pre' as [|[l x] pre' IH]; intros ty_rows keys st0 tys0 st1 tys1 Hr Hnd'.
    - rewrite for_each_nil in Hr. injection Hr as <- _.
      exists ty_rows. rewrite app_nil_r. reflexivity.
    - rewrite for_each_cons in Hr. unfold rb at 1 in Hr. rewrite obind_assoc in Hr.
      rewrite for_each_cons, Hbody, obind_assoc. cbn [snd] in Hr.
      destruct (ck_row st0 x) as [s1 t| |]; cbn [obind] in Hr |- *; try discriminate.
      destruct (existsb (Label_eqb (val l)) keys) eqn:E.
      + apply existsb_Label_eqb in E. simpl in Hnd'.
        apply NoDup_remove_2 in Hnd'. exfalso. apply Hnd'. apply in_or_app. now left.
      + simpl in Hnd'.
        assert (Hnd'' : NoDup ((keys ++ [val l]) ++ map (fun r => val (fst r)) pre'))
          by (rewrite <- app_assoc; exact Hnd').
        destruct (IH (ty_rows ++ [(val l, t)]) (keys ++ [val l]) s1 _ st1 tys1 Hr Hnd'')
          as (tr & H).
        exists tr. cbn [obind map]. rewrite H, <- app_assoc. reflexivity. }
  rewrite for_each_app in Hok.
  destruct (for_each st pre [] rb) as [s1 t1| |] eqn:Hpre; cbn [obind] in Hok; try discriminate.
  rewrite for_each_cons in Hok. unfold rb at 1 in Hok. rewrite obind_assoc in Hok. cbn [snd] in Hok.
  destruct (ck_row s1 e) as [s2 t2| |] eqn:He; cbn [obind] in Hok; try discriminate.
  destruct (Hrun pre [] [] st [] s1 t1 Hpre Hnd) as (tr & H).
  rewrite for_each_app, H. cbn [obind]. rewrite for_each_cons, Hbody, obind_assoc, He.
  cbn [obind].
  assert (E : existsb (Label_eqb (val lab)) (map (fun r => val (fst r)) pre) = true)
    by now apply existsb_Label_eqb.
  rewrite app_nil_l, E. reflexivity.
Qed.
End RecordLoop.
(** C7: the core checker types a record expression with its rows in
    textual order: the row type lists the labels as written, with one
    type per row, and the labels are pairwise distinct.  A label already
    used by an earlier row is rejected with a duplicate-label error at the
    later occurrence, provided the rows up to it check: their field
    expressions, checked in order from the given state, each in the state
    the one before leaves, all succeed. *)
Theorem record_rows_textual_order :
  (forall ops cx st l rows st' t,
   ck_exp ops cx st (LExp_at l (Exp_Record rows)) = COk st' t ->
   exists tys,
     t = Record (combine (map (fun r => val (fst r)) rows) tys) /\
     length tys = length rows /\
     NoDup (map (fun r => val (fst r)) rows)) /\
  (forall ops cx st l pre lab e post,
   (exists st1 tys, ck_rows ops cx st (pre ++ [(lab, e)]) = COk st1 tys) ->
   NoDup (map (fun r => val (fst r)) pre) ->
   In (val lab) (map (fun r => val (fst r)) pre) ->
   ck_exp ops cx st (LExp_at l (Exp_Record (pre ++ (lab, e) :: post))) =
   CErr (loc lab) (DuplicateLabel (val lab))).
Proof.
  split.
  - intros ops cx st l rows st' t H. cbn [ck_exp] in H.
    match type of H with
    | obind (for_each _ _ _ ?b) _ = _ =>
        destruct (for_each st rows ([], []) b) as [st1 res| |] eqn:F; cbn [obind] in H;
        try discriminate;
        destruct (record_loop_ok (ck_exp ops cx) b ltac:(intros; reflexivity) rows st [] [] st1 res F
                   (NoDup_nil _)) as (tys & H1 & H2 & H3 & H4)
    end.
    injection H as <- <-. exists tys. rewrite H1. auto.
  - intros ops cx st l pre lab e post Hok Hnd Hin. cbn [ck_exp].
    match goal with
    | |- obind (for_each _ _ _ ?b) _ = _ =>
        rewrite (record_loop_dup (ck_exp ops cx) b ltac:(intros; reflexivity) pre lab e post st Hok Hnd Hin)
    end.
    reflexivity.
Qed.

(** C7 counterexample: [{a=1,b="s"}] and [{b="s",a=1}] have the same
    labels and fields, and the core checker gives them two different row
    types, [{a:int, b:string}] and [{b:string, a:int}]. *)
Lemma record_order_counterexample :
  ck_exp ops_ex ex_cx ex_st rec_ab = COk ex_st (Record [(Label_Vid "a", Ty_INT); (Label_Vid "b", Ty_STRING)]) /\
  ck_exp ops_ex ex_cx ex_st rec_ba = COk ex_st (Record [(Label_Vid "b", Ty_STRING); (Label_Vid "a", Ty_INT)]) /\
  Record [(Label_Vid "a", Ty_INT); (Label_Vid "b", Ty_STRING)] <>
  Record [(Label_Vid "b", Ty_STRING); (Label_Vid "a", Ty_INT)].
Proof.
  split; [vm_compute; reflexivity | split; [vm_compute; reflexivity | discriminate]].
Qed.

(** C10: in the core checker a sequence expression with no
    subexpression, and a let expression with no body expression, panic
    (the source unwraps a [None]) instead of reporting an error.  With a
    last subexpression [e], a sequence that checks has the type [e] checks
    to, and a let has that type with the substitution applied, [e] being
    checked in the environment extended by the declaration. *)
Theorem empty_sequence_let_panics :
  (forall ops cx st l, ck_exp ops cx st (LExp_at l (Exp_Sequence [])) = CPanic) /\
  (forall ops cx st l dec st1 env,
   ck ops cx st dec = COk st1 env ->
   ck_exp ops cx st (LExp_at l (Exp_Let dec [])) = CPanic) /\
  (forall ops cx st l es e st' t,
   ck_exp ops cx st (LExp_at l (Exp_Sequence (es ++ [e]))) = COk st' t ->
   exists st1, ck_exp ops cx st1 e = COk st' t) /\
  (forall ops cx st l dec es e st' t,
   ck_exp ops cx st (LExp_at l (Exp_Let dec (es ++ [e]))) = COk st' t ->
   exists st0 env st1 t',
     ck ops cx st dec = COk st0 env /\
     ck_exp ops (Cx_o_plus cx env) st1 e = COk st' t' /\
     t = Ty_apply ops st' t').
Proof.
  split; [|split; [|split]].
  - intros. reflexivity.
  - intros ops cx st l dec st1 env H. cbn [ck_exp]. rewrite H. reflexivity.
  - intros ops cx st l es e st' t H. cbn [ck_exp] in H.
    rewrite for_each_app in H.
    match type of H with
    | obind (obind (for_each _ _ _ ?b) _) _ = _ => destruct (for_each st es None b) as [s0 a0| |]
    end; cbn [obind] in H; try discriminate.
    rewrite for_each_cons in H. cbn [obind] in H.
    exists s0. destruct (ck_exp ops cx s0 e) as [s1 t1| |]; cbn [obind for_each] in H; try discriminate.
    injection H as <- <-. reflexivity.
  - intros ops cx st l dec es e st' t H. cbn [ck_exp] in H.
    destruct (ck ops cx st dec) as [st0 env| |] eqn:D; cbn [obind] in H; try discriminate.
    rewrite for_each_app in H.
    match type of H with
    | obind (obind (for_each _ _ _ ?b) _) _ = _ => destruct (for_each st0 es None b) as [s0 a0| |]
    end; cbn [obind] in H; try discriminate.
    rewrite for_each_cons in H. cbn [obind] in H.
    destruct (ck_exp ops (Cx_o_plus cx env) s0 e) as [s1 t1| |] eqn:E; cbn [obind for_each] in H;
      try discriminate.
    destruct (negb _) in H; try discriminate.
    injection H as <- <-. exists st0, env, s0, t1. auto.
Qed.

(** C4: [ck_binding] rejects exactly the names [true], [false], [nil],
    [::] and [ref], at the binding site; but the [fun] arm of the core
    checker never calls it on the function name: for any operations,
    context and state, [fun N () = ()] checks to the same final state,
    error or panic whatever the name [N], [true] included. *)
Theorem fun_head_not_checked :
  (forall l name,
   ck_binding (mkLocated l name) = inl (l, ForbiddenBinding name) <->
   In name [StrRef_TRUE; StrRef_FALSE; StrRef_NIL; StrRef_CONS; StrRef_REF]) /\
  (forall ops cx st l ln lp lb n1 n2,
   outcome_shape (ck ops cx st (fun_unit n1 l ln lp lb)) =
   outcome_shape (ck ops cx st (fun_unit n2 l ln lp lb))).
Proof.
  split.
  - intros l name. unfold ck_binding. cbn [val loc].
    destruct (existsb (String.eqb name) _) eqn:E.
    + apply existsb_exists in E. destruct E as (x & Hx & Hq).
      apply String.eqb_eq in Hq. subst x. split; auto.
    + split; [discriminate|]. intros Hin.
      assert (existsb (String.eqb name) [StrRef_TRUE; StrRef_FALSE; StrRef_NIL; StrRef_CONS; StrRef_REF] = true)
        as E' by (apply existsb_exists; exists name; split; [exact Hin | apply String.eqb_refl]).
      congruence.
  - intros ops cx st l ln lp lb n1 n2.
    cbn [ck]. unfold for_each. cbn -[new_ty_var].
    rewrite ?String.eqb_refl. cbn. rewrite !String.eqb_refl. cbn.
    repeat (match goal with |- context [match ?x with _ => _ end] => destruct x end; cbn).
    all: reflexivity.
Qed.

(** C4 counterexample: with the example operations, [fun true () = ()]
    checks without any error in the core checker. *)
Lemma fun_true_accepted :
  match ck ops_ex ex_cx ex_st (fun_unit StrRef_TRUE (0, 16) (4, 8) (9, 11) (14, 16)) with
  | COk _ _ => True
  | _ => False
  end.
Proof. vm_compute. exact I. Qed.
End CoreFacts.

(** * Further properties of the statics crates *)

(** ** [types.rs]: [datatype], [Syms::insert] and [Syms::get] *)

Lemma assoc_get_datatype (ts : TyScheme) (ctors : list (Name * option Ty)) (n : Name) :
  assoc_get n (ti_val_env (datatype "" ts ctors)) =
  option_map (fun arg =>
    mkValInfo (match arg with
               | None => ts
               | Some a => mkTyScheme (ts_vars ts) (Ty_Fn a (ts_ty ts))
               end) IdStatus_Con) (assoc_get n ctors).
Proof.
  induction ctors as [|[cn arg] ctors IH]; simpl; [reflexivity|].
  destruct (String.eqb n cn); [reflexivity|exact IH].
Qed.

(** [datatype(name, ty_scheme, ctors)] records the name and scheme it is
    given, and its value environment binds exactly the constructor names:
    each one with status [Con], the scheme's own type variables, and the
    type itself for a nullary constructor or [arg -> ty] for one with an
    argument. *)
Theorem datatype_ctor_infos (name : Name) (ts : TyScheme) (ctors : list (Name * option Ty))
    (Hnd : NoDup (map fst ctors)) :
  ti_name (datatype name ts ctors) = name /\
  ti_ty_scheme (datatype name ts ctors) = ts /\
  (forall n, assoc_get n (ti_val_env (datatype name ts ctors)) = None <->
             ~ In n (map fst ctors)) /\
  (forall cn arg, In (cn, arg) ctors ->
   exists vi, assoc_get cn (ti_val_env (datatype name ts ctors)) = Some vi /\
     vi_id_status vi = IdStatus_Con /\
     ts_vars (vi_ty_scheme vi) = ts_vars ts /\
     ts_ty (vi_ty_scheme vi) = match arg with None => ts_ty ts | Some a => Ty_Fn a (ts_ty ts) end).
Proof.
  assert (E : ti_val_env (datatype name ts ctors) = ti_val_env (datatype "" ts ctors)) by reflexivity.
  split; [reflexivity|split; [reflexivity|split]]; rewrite E; clear E.
  - intros n. rewrite assoc_get_datatype.
    clear Hnd. induction ctors as [|[cn arg] ctors IH]; simpl; [tauto|].
    destruct (String.eqb n cn) eqn:Q.
    + apply String.eqb_eq in Q. subst. simpl. split; [discriminate|]. intros H. exfalso. auto.
    + apply String.eqb_neq in Q. rewrite IH. split; intros H; [intros [H'|H']; [congruence|auto]|auto].
  - intros cn arg Hin. rewrite assoc_get_datatype.
    assert (assoc_get cn ctors = Some arg) as ->.
    { induction ctors as [|[cn' arg'] ctors IH]; [destruct Hin|].
      simpl in Hnd. inversion Hnd as [|? ? Hnot Hnd']; subst.
      simpl. destruct Hin as [Hin|Hin].
      - injection Hin as -> ->. now rewrite String.eqb_refl.
      - destruct (String.eqb cn cn') eqn:Q.
        + apply String.eqb_eq in Q. subst. exfalso. apply Hnot.
          apply (in_map fst _ _ Hin).
        + exact (IH Hnd' Hin). }
    simpl. eexists. split; [reflexivity|].
    destruct arg; simpl; auto.
Qed.

Lemma datatype_ctor_infos_witness :
  NoDup (map fst [("nil", None); ("::", Some (Ty_BoundVar 0))]) /\
  exists vi,
    assoc_get "::" (ti_val_env (datatype "list" (mkTyScheme [false] (Ty_Con [Ty_BoundVar 0] Sym_LIST))
                                  [("nil", None); ("::", Some (Ty_BoundVar 0))])) = Some vi /\
    vi_id_status vi = IdStatus_Con /\
    ts_ty (vi_ty_scheme vi) = Ty_Fn (Ty_BoundVar 0) (Ty_Con [Ty_BoundVar 0] Sym_LIST).
Proof.
  assert (Hnd : NoDup (map fst [("nil", @None Ty); ("::", Some (Ty_BoundVar 0))])).
  { simpl. constructor; [simpl; intros [H|[]]; discriminate|constructor; [intros []|constructor]]. }
  split; [exact Hnd|].
  destruct (datatype_ctor_infos "list" (mkTyScheme [false] (Ty_Con [Ty_BoundVar 0] Sym_LIST))
              [("nil", None); ("::", Some (Ty_BoundVar 0))] Hnd) as (_ & _ & _ & H).
  destruct (H "::" (Some (Ty_BoundVar 0)) (or_intror (or_introl eq_refl))) as (vi & H1 & H2 & _ & H4).
  exists vi. split; [exact H1|split; [exact H2|exact H4]].
Defined.

(** [Syms::insert] then [Syms::get]: the new symbol looks up the info just
    inserted, every symbol that was valid before looks up what it did
    before, and [get] panics ([unwrap] on [None]) exactly on the indices
    past the new end of the store; the table is no longer empty. *)
Theorem syms_insert_get (syms : Syms) (ti : TyInfo) :
  let '(syms', sym) := Syms_insert syms ti in
  Syms_get syms' sym = Some ti /\
  (forall s, sym_idx s < length (store syms) -> Syms_get syms' s = Syms_get syms s) /\
  (forall s, Syms_get syms' s = None <-> length (store syms) < sym_idx s) /\
  store syms' <> [].
Proof.
  unfold Syms_insert, Syms_get. simpl. split; [|split; [|split]].
  - rewrite nth_error_app2 by lia. rewrite Nat.sub_diag. reflexivity.
  - intros s Hs. apply nth_error_app1. exact Hs.
  - intros s. rewrite nth_error_None, length_app. simpl. lia.
  - intros H. apply app_eq_nil in H as [_ H]. discriminate.
Qed.

(** ** [types.rs]: [TyDisplay] *)

Lemma is_some_ocat (a b : option string) : is_some (ocat a b) = is_some a && is_some b.
Proof. destruct a, b; reflexivity. Qed.

Lemma is_some_parens (b : bool) (s : option string) : is_some (parens b s) = is_some s.
Proof. destruct b, s; reflexivity. Qed.

Lemma is_some_sep_tail {A : Type} (sep : string) (show : A -> option string) (xs : list A) :
  is_some (sep_tail sep show xs) = forallb (fun x => is_some (show x)) xs.
Proof.
  induction xs as [|x xs IH]; [reflexivity|].
  change (is_some (ocat (Some sep) (ocat (show x) (sep_tail sep show xs)))
          = is_some (show x) && forallb (fun x => is_some (show x)) xs).
  rewrite !is_some_ocat, IH. reflexivity.
Qed.

Lemma forallb_Forall_ext {A : Type} (f g : A -> bool) (xs : list A) :
  Forall (fun x => f x = g x) xs -> forallb f xs = forallb g xs.
Proof. induction 1; simpl; congruence. Qed.

(** [TyDisplay::fmt] panics exactly when the type has a bound variable out
    of range of the scheme's variables ([self.vars.get(bv).unwrap()]) or
    a symbol missing from the table ([self.syms.get(sym).unwrap()]); the
    precedence it is printed at never matters, nor do the printers of
    names, labels and meta variables. *)
Theorem ty_display_none_iff (show_name : Name -> string) (show_num show_uniq : nat -> string)
    (lab_tuple : nat -> Lab) (vars : TyVars) (syms : Syms) (prec : TyPrec) (t : Ty) :
  ty_display show_name show_num show_uniq lab_tuple vars syms prec t = None <->
  displayable vars syms t = false.
Proof.
  enough (E : forall prec, is_some (ty_display show_name show_num show_uniq lab_tuple vars syms prec t)
                           = displayable vars syms t).
  { specialize (E prec). destruct (ty_display _ _ _ _ _ _ _ _); simpl in E; split; congruence. }
  induction t as [| v | mv | rows IH | args sym IH | p r IHp IHr] using Ty_ind'; intros pr;
    cbn [ty_display displayable].
  - reflexivity.
  - destruct (nth_error vars v) eqn:E.
    + symmetry. apply Nat.ltb_lt. apply nth_error_Some. congruence.
    + symmetry. apply Nat.ltb_ge. apply nth_error_None. exact E.
  - reflexivity.
  - destruct rows as [|[lab0 ty0] rest]; [reflexivity|].
    inversion IH as [|? ? IH0 IHrest]; subst. simpl in IH0.
    destruct (is_tuple lab_tuple _).
    + rewrite is_some_parens, is_some_ocat, is_some_sep_tail, IH0.
      cbn [forallb snd]. f_equal. apply forallb_Forall_ext.
      eapply Forall_impl; [|exact IHrest]. intros x Hx. apply Hx.
    + rewrite !is_some_ocat, is_some_sep_tail, IH0. cbn [is_some andb].
      rewrite Bool.andb_true_r.
      cbn [forallb snd]. f_equal. apply forallb_Forall_ext.
      eapply Forall_impl; [|exact IHrest]. intros x Hx. cbv beta.
      rewrite is_some_ocat, Hx. reflexivity.
  - rewrite is_some_ocat.
    assert (Hs : is_some (match Syms_get syms sym with
                          | Some ti => Some (show_name (ti_name ti)) | None => None end)
                 = match Syms_get syms sym with Some _ => true | None => false end)
      by (destruct (Syms_get syms sym); reflexivity).
    rewrite Hs. f_equal.
    destruct args as [|a [|b rest]]; [reflexivity| |].
    + inversion IH as [|? ? IHa]; subst. cbn [forallb]. rewrite is_some_ocat, IHa. reflexivity.
    + inversion IH as [|? ? IHa IHrest]; subst. inversion IHrest as [|? ? IHb IHrest']; subst.
      rewrite !is_some_ocat, is_some_sep_tail, IHa. cbn [forallb is_some andb].
      rewrite Bool.andb_true_r, IHb. f_equal. f_equal.
      apply forallb_Forall_ext. eapply Forall_impl; [|exact IHrest']. intros x Hx. apply Hx.
  - rewrite is_some_parens, !is_some_ocat, IHp, IHr. reflexivity.
Qed.

Lemma list_ascii_of_string_app (a b : string) :
  list_ascii_of_string (a ++ b)%string = list_ascii_of_string a ++ list_ascii_of_string b.
Proof. induction a as [|c a IH]; simpl; [reflexivity|rewrite IH; reflexivity]. Qed.

Lemma string_app_inv_head (p x y : string) : (p ++ x)%string = (p ++ y)%string -> x = y.
Proof. induction p as [|c p IH]; simpl; [auto|intros H; injection H as H; auto]. Qed.

Lemma str_rep_chars (n : nat) (c d : Ascii.ascii) :
  In d (list_ascii_of_string (str_rep n c)) -> d = c.
Proof. induction n as [|n IH]; simpl; [intros []|intros [H|H]; auto]. Qed.

Lemma str_rep_length (n : nat) (c : Ascii.ascii) : String.length (str_rep n c) = n.
Proof. induction n as [|n IH]; simpl; congruence. Qed.

Lemma bound_var_letter_code (v : nat) :
  Ascii.nat_of_ascii (Ascii.ascii_of_nat (v mod 25 + 97)) = v mod 25 + 97.
Proof.
  apply Ascii.nat_ascii_embedding.
  pose proof (Nat.mod_upper_bound v 25). lia.
Qed.

Lemma ty_display_bound_var (show_name : Name -> string) (show_num show_uniq : nat -> string)
    (lab_tuple : nat -> Lab) (vars : TyVars) (syms : Syms) (prec : TyPrec) (v : nat) (s : string) :
  ty_display show_name show_num show_uniq lab_tuple vars syms prec (Ty_BoundVar v) = Some s ->
  exists eq, s = (equality_str eq ++
                  String (Ascii.ascii_of_nat (v mod 25 + 97))
                         (str_rep (v / 25) (Ascii.ascii_of_nat (v mod 25 + 97))))%string.
Proof.
  simpl. destruct (nth_error vars v) as [eq|]; [|discriminate].
  intros H. injection H as <-. exists eq. reflexivity.
Qed.

(** The names [TyDisplay] prints for bound type variables ([BoundVar]):
    two of them are the same text exactly when they are the same variable,
    whatever the equality flags and precedences, and the letter [z] never
    occurs in them, the letters being [a] to [y] since
    [alpha = b'z' - b'a' = 25]. *)
Theorem bound_var_names_distinct (show_name : Name -> string) (show_num show_uniq : nat -> string)
    (lab_tuple : nat -> Lab) (vars : TyVars) (syms : Syms) (p1 p2 : TyPrec) (v1 v2 : nat) (s1 s2 : string)
    (H1 : ty_display show_name show_num show_uniq lab_tuple vars syms p1 (Ty_BoundVar v1) = Some s1)
    (H2 : ty_display show_name show_num show_uniq lab_tuple vars syms p2 (Ty_BoundVar v2) = Some s2) :
  (s1 = s2 <-> v1 = v2) /\ ~ In "z"%char (list_ascii_of_string s1).
Proof.
  split.
  - split.
    + intros <-.
      apply ty_display_bound_var in H1 as [b1 ->]. apply ty_display_bound_var in H2 as [b2 E].
      pose proof (bound_var_letter_code v1) as C1. pose proof (bound_var_letter_code v2) as C2.
      set (c1 := Ascii.ascii_of_nat (v1 mod 25 + 97)) in *. clearbody c1.
      set (c2 := Ascii.ascii_of_nat (v2 mod 25 + 97)) in *. clearbody c2.
      assert (Hl : String c1 (str_rep (v1 / 25) c1) = String c2 (str_rep (v2 / 25) c2) -> v1 = v2).
      { intros Hs. injection Hs as <- Hs.
        apply (f_equal String.length) in Hs. rewrite !str_rep_length in Hs. change (v1 / 25 = v2 / 25) in Hs.
        rewrite (Nat.div_mod_eq v1 25), (Nat.div_mod_eq v2 25). lia. }
      destruct b1, b2; unfold equality_str in E.
      * apply Hl. apply (string_app_inv_head "''"). exact E.
      * exfalso. apply (f_equal (String.get 1)) in E. simpl in E. injection E as E.
        assert (Q : Ascii.nat_of_ascii "'"%char = 39) by reflexivity.
        rewrite <- E, Q in C2. lia.
      * exfalso. apply (f_equal (String.get 1)) in E. simpl in E. injection E as E.
        assert (Q : Ascii.nat_of_ascii "'"%char = 39) by reflexivity.
        rewrite E, Q in C1. lia.
      * apply Hl. apply (string_app_inv_head "'"). exact E.
    + intros <-. simpl in H1, H2. destruct (nth_error vars v1); congruence.
  - apply ty_display_bound_var in H1 as [b1 ->].
    rewrite list_ascii_of_string_app. intros Hz. apply in_app_or in Hz as [Hz|Hz].
    + destruct b1; simpl in Hz; intuition discriminate.
    + apply (str_rep_chars (S (v1 / 25))) in Hz.
      apply (f_equal Ascii.nat_of_ascii) in Hz. rewrite bound_var_letter_code in Hz.
      assert (Q : Ascii.nat_of_ascii "z"%char = 122) by reflexivity.
      rewrite Q in Hz. pose proof (Nat.mod_upper_bound v1 25). lia.
Qed.

Lemma bound_var_names_distinct_witness :
  ty_display (fun _ => "") (fun _ => "") (fun _ => "") (fun n => Lab_Num (S n))
    [false; true] Syms_default Prec_Arrow (Ty_BoundVar 1) = Some "''b" /\
  ("''b" = "''b" <-> 1 = 1) /\ ~ In "z"%char (list_ascii_of_string "''b").
Proof.
  split; [reflexivity|].
  exact (bound_var_names_distinct (fun _ => "") (fun _ => "") (fun _ => "") (fun n => Lab_Num (S n))
           [false; true] Syms_default Prec_Arrow Prec_App 1 1 "''b" "''b" eq_refl eq_refl).
Defined.

(** ** [ty.rs]: [ty::get] *)

Lemma btree_insert_in (l : Lab) (t : Ty) (m : list (Lab * Ty)) (x : Lab * Ty) :
  In x (btree_insert l t m) -> x = (l, t) \/ In x m.
Proof.
  induction m as [|[l' t'] m IH]; simpl.
  - intros [H|[]]; auto.
  - destruct (Lab_eqb l l'); [intros [H|H]; auto|].
    destruct (Lab_ltb l l'); [intros [H|[H|H]]; auto|].
    intros [H|H]; auto. destruct (IH H); auto.
Qed.

Lemma record_rows_inv {S X : Type} (s_err : S -> SError -> S) (f : S -> Lab -> X -> Ret (S * Ty))
    (R : S -> S -> Prop) (Q : Ty -> Prop) (Hrefl : forall x, R x x)
    (Htrans : forall x y z, R x y -> R y z -> R x z)
    (Herr : forall x e, R x (s_err x e)) (rows : list (Lab * X)) :
  Forall (fun r => forall st st' t, f st (fst r) (snd r) = Done (st', t) -> R st st' /\ Q t) rows ->
  forall st acc st' m, Forall (fun e => Q (snd e)) acc ->
  record_rows s_err f st rows acc = Done (st', m) -> R st st' /\ Forall (fun e => Q (snd e)) m.
Proof.
  induction 1 as [|[lab x] rows Hx _ IH]; intros st acc st' m Hacc; simpl.
  - intros H. injection H as <- <-. auto.
  - destruct (f st lab x) as [[st1 t]|] eqn:Hf; [|discriminate].
    destruct (Hx st st1 t Hf) as [HR HQ].
    destruct (existsb _ acc); intros H.
    + destruct (IH _ _ _ _ Hacc H) as [HR2 HQ2]. eauto.
    + assert (Hacc' : Forall (fun e => Q (snd e)) (btree_insert lab t acc)).
      { apply Forall_forall. intros e He. apply btree_insert_in in He as [->|He]; auto.
        rewrite Forall_forall in Hacc. auto. }
      destruct (IH _ _ _ _ Hacc' H) as [HR2 HQ2]. eauto.
Qed.

Definition sst_frame (st st' : SSt) : Prop :=
  sst_meta_gen st' = sst_meta_gen st /\ sst_subst st' = sst_subst st /\ errors_grow st st'.

Lemma sst_frame_refl (st : SSt) : sst_frame st st.
Proof. split; [|split]; auto using errors_grow_refl. Qed.

Lemma sst_frame_trans (a b c : SSt) : sst_frame a b -> sst_frame b c -> sst_frame a c.
Proof. intros (? & ? & ?) (? & ? & ?). split; [|split]; [congruence|congruence|eauto using errors_grow_trans]. Qed.

Lemma sst_frame_err (st : SSt) (e : SError) : sst_frame st (SSt_err st e).
Proof. split; [|split]; auto using errors_grow_err. Qed.

(** What [ty::get] returns, whenever it returns: it never makes a meta
    variable nor touches the substitution, it only adds errors, and the
    type it builds has neither a meta variable nor a bound variable
    (an unresolved name becoming [Ty::None]). *)
Theorem ty_get_frame (st : SSt) (cx : Cx) (t : HTy) (st' : SSt) (ty : Ty)
    (H : ty_get st cx t = Done (st', ty)) :
  sst_meta_gen st' = sst_meta_gen st /\ sst_subst st' = sst_subst st /\
  (exists extra, sst_errors st' = sst_errors st ++ extra) /\ no_ty_vars ty = true.
Proof.
  enough (E : sst_frame st st' /\ no_ty_vars ty = true) by
    (destruct E as ((? & ? & ?) & ?); auto).
  revert st st' ty H.
  induction t as [| v | rows IH | args path IH | p r IHp IHr] using HTy_ind';
    intros st st' ty H; simpl in H.
  - injection H as <- <-. auto using sst_frame_refl.
  - discriminate.
  - unfold record in H.
    destruct (record_rows _ _ st rows []) as [[st1 m]|] eqn:Hr; [|discriminate].
    injection H as <- <-.
    assert (IH' : Forall (fun r => forall st st' t, ty_get st cx (snd r) = Done (st', t) ->
                                   sst_frame st st' /\ no_ty_vars t = true) rows) by exact IH.
    destruct (record_rows_inv SSt_err (fun st _ t => ty_get st cx t) sst_frame
                (fun t => no_ty_vars t = true) sst_frame_refl sst_frame_trans sst_frame_err rows IH'
                st (@nil (Lab * Ty)) st1 m (Forall_nil _) Hr) as [HR HQ].
    split; [exact HR|]. simpl. apply forallb_forall. intros e He.
    rewrite Forall_forall in HQ. auto.
  - destruct (get_env (cx_env cx) (path_structures path)) as [env|].
    2: { injection H as <- <-. auto using sst_frame_err. }
    destruct (assoc_get (path_last path) (env_ty_env env)) as [sym|].
    2: { injection H as <- <-. auto using sst_frame_err. }
    assert (Hgo : forall st st' ts,
      (fix go (st : SSt) (args : list HTy) : Ret (SSt * list Ty) :=
         match args with
         | [] => Done (st, [])
         | a :: rest =>
             match ty_get st cx a with
             | Panic => Panic
             | Done (st1, t) =>
                 match go st1 rest with
                 | Panic => Panic
                 | Done (st2, ts) => Done (st2, t :: ts)
                 end
             end
         end) st args = Done (st', ts) -> sst_frame st st' /\ forallb no_ty_vars ts = true).
    { clear H. induction IH as [|a rest Ha _ IHr]; intros st0 st0' ts Hgo.
      - injection Hgo as <- <-. auto using sst_frame_refl.
      - destruct (ty_get st0 cx a) as [[st1 t1]|] eqn:Ht; [|discriminate].
        destruct (Ha _ _ _ Ht) as [HR1 HQ1].
        match type of Hgo with
        | match ?g with _ => _ end = _ => destruct g as [[st2 ts2]|] eqn:Hts; [|discriminate]
        end.
        injection Hgo as <- <-.
        destruct (IHr _ _ _ Hts) as [HR2 HQ2].
        split; [eauto using sst_frame_trans|]. simpl. rewrite HQ1, HQ2. reflexivity. }
    match type of H with
    | match ?g with _ => _ end = _ => destruct g as [[st1 ts]|] eqn:Hts; [|discriminate]
    end.
    injection H as <- <-. exact (Hgo _ _ _ Hts).
  - destruct (ty_get st cx p) as [[st1 p']|] eqn:H1; [|discriminate].
    destruct (ty_get st1 cx r) as [[st2 r']|] eqn:H2; [|discriminate].
    injection H as <- <-.
    destruct (IHp _ _ _ H1) as [HR1 HQ1]. destruct (IHr _ _ _ H2) as [HR2 HQ2].
    split; [eauto using sst_frame_trans|]. simpl. rewrite HQ1, HQ2. reflexivity.
Qed.

Lemma ty_get_frame_witness :
  ty_get (mkSSt [] 3 []) (mkCx (mkEnv [] [("int", Sym_INT)] []))
    (HTy_Fn (HTy_Con [] (mkPath [] "int")) (HTy_Con [] (mkPath [] "bool")))
  = Done (mkSSt [SE_Undefined] 3 [], Ty_Fn (Ty_Con [] Sym_INT) Ty_None) /\
  sst_meta_gen (mkSSt [SE_Undefined] 3 []) = sst_meta_gen (mkSSt [] 3 []).
Proof.
  split; [reflexivity|].
  exact (proj1 (ty_get_frame (mkSSt [] 3 []) (mkCx (mkEnv [] [("int", Sym_INT)] []))
           (HTy_Fn (HTy_Con [] (mkPath [] "int")) (HTy_Con [] (mkPath [] "bool")))
           (mkSSt [SE_Undefined] 3 []) (Ty_Fn (Ty_Con [] Sym_INT) Ty_None) eq_refl)).
Defined.

(** ** [pat.rs]: [pat::get] *)

(** How [pat::get] reads an unqualified name [x] with no argument: when
    [x] is not in the value environment it is a variable, checked as
    [any]: a wildcard with a fresh meta variable and no error; when [x]
    is bound as an ordinary value ([IdStatus::Val]), [PatValIdStatus] is
    recorded first, and whatever follows only adds errors, given that
    [instantiate] only adds errors. *)
Theorem pat_get_unqualified_name
    (instantiate : SSt -> TyScheme -> SSt * Ty) (unify_st : SSt -> Ty -> Ty -> SSt)
    (apply_st : Subst -> Ty -> Ty)
    (Hinst : forall st ts, errors_grow st (fst (instantiate st ts)))
    (st : SSt) (cx : Cx) (idx : nat) (x : Name) :
  (assoc_get x (env_val_env (cx_env cx)) = None ->
   pat_get instantiate unify_st apply_st st cx (HPat_Con idx (mkPath [] x) None) = Done (pat_any st idx) /\
   pat_any st idx = (mkSSt (sst_errors st) (S (sst_meta_gen st)) (sst_subst st),
                     Pat_zero Con_Any idx, Ty_MetaVar (mkMetaTyVar (sst_meta_gen st) false))) /\
  (forall vi, assoc_get x (env_val_env (cx_env cx)) = Some vi -> vi_id_status vi = IdStatus_Val ->
   forall st' p t,
   pat_get instantiate unify_st apply_st st cx (HPat_Con idx (mkPath [] x) None) = Done (st', p, t) ->
   exists extra, sst_errors st' = sst_errors st ++ SE_PatValIdStatus :: extra).
Proof.
  split.
  - intros Hx. simpl. rewrite Hx. split; reflexivity.
  - intros vi Hx Hval st' p t H. simpl in H. rewrite Hx in H. simpl in H. rewrite Hval in H.
    destruct (instantiate (SSt_err st SE_PatValIdStatus) (vi_ty_scheme vi)) as [st1 ty] eqn:Hi.
    assert (G : errors_grow (SSt_err st SE_PatValIdStatus) st1).
    { pose proof (Hinst (SSt_err st SE_PatValIdStatus) (vi_ty_scheme vi)) as G. rewrite Hi in G. exact G. }
    assert (G2 : errors_grow (SSt_err st SE_PatValIdStatus) st').
    { destruct ty as [| | | | args sym | param res]; try discriminate.
      - injection H as <- _ _. exact G.
      - destruct res; try discriminate. injection H as <- _ _.
        eapply errors_grow_trans; [exact G|apply errors_grow_err]. }
    destruct G2 as [extra E]. exists extra. rewrite E. simpl. rewrite <- app_assoc. reflexivity.
Qed.

Lemma pat_get_unqualified_name_witness :
  pat_get (fun st ts => (st, ts_ty ts)) (fun st _ _ => st) (fun _ t => t) (mkSSt [] 0 [])
    (mkCx (mkEnv [] [] [("x", mkValInfo (mkTyScheme [] (Ty_Con [] Sym_INT)) IdStatus_Val)]))
    (HPat_Con 7 (mkPath [] "x") None)
  = Done (mkSSt [SE_PatValIdStatus] 0 [], Pat_con (Con_Variant Sym_INT "x") [] 7, Ty_Con [] Sym_INT) /\
  exists extra, [SE_PatValIdStatus] = [] ++ SE_PatValIdStatus :: extra.
Proof.
  split; [reflexivity|].
  refine (proj2 (pat_get_unqualified_name (fun st ts => (st, ts_ty ts)) (fun st _ _ => st) (fun _ t => t)
            (fun st ts => errors_grow_refl st) (mkSSt [] 0 [])
            (mkCx (mkEnv [] [] [("x", mkValInfo (mkTyScheme [] (Ty_Con [] Sym_INT)) IdStatus_Val)]))
            7 "x")
            (mkValInfo (mkTyScheme [] (Ty_Con [] Sym_INT)) IdStatus_Val) eq_refl eq_refl
            (mkSSt [SE_PatValIdStatus] 0 []) (Pat_con (Con_Variant Sym_INT "x") [] 7) (Ty_Con [] Sym_INT)
            eq_refl).
Defined.

(** [pat::get] does not panic on a pattern without [...] in a record and
    without type variables in its annotations, provided [instantiate]
    gives, for every value in scope, a constructor type or a function type
    to a constructor type (the two [unreachable!()] arms). *)
Theorem pat_get_no_panic
    (instantiate : SSt -> TyScheme -> SSt * Ty) (unify_st : SSt -> Ty -> Ty -> SSt)
    (apply_st : Subst -> Ty -> Ty)
    (Hinst : forall st ts, match snd (instantiate st ts) with
                           | Ty_Con _ _ => True
                           | Ty_Fn _ (Ty_Con _ _) => True
                           | _ => False
                           end)
    (p : HPat) (Hp : hpat_supported p = true) (st : SSt) (cx : Cx) :
  pat_get instantiate unify_st apply_st st cx p <> Panic.
Proof.
  rename instantiate into inst.
  revert Hp st.
  induction p as [idx|idx|idx scon|idx path arg IH|idx rows ao IH|idx p want IH|idx name p IH]
    using HPat_ind'; intros Hp st; simpl in Hp |- *.
  - discriminate.
  - discriminate.
  - destruct scon; discriminate.
  - destruct (_ && _ && _); [discriminate|].
    destruct arg as [a|];
      [specialize (IH Hp st);
       destruct (pat_get _ _ _ st cx a) as [[[st1 ap] aty]|]; [|exfalso; apply IH; reflexivity]|].
    all: destruct (get_env (cx_env cx) (path_structures path)) as [env|]; [|discriminate].
    all: destruct (assoc_get (path_last path) (env_val_env env)) as [vi|]; [|discriminate].
    all: destruct (inst _ _) as [st2 ty] eqn:Ei.
    all: match type of Ei with
         | _ ?s ?ts = _ => pose proof (Hinst s ts) as Hi; rewrite Ei in Hi
         end.
    all: simpl in Hi; destruct ty as [| | | | args sym | param res]; try contradiction;
         [discriminate|destruct res; try contradiction; discriminate].
  - apply andb_true_iff in Hp as [Hao Hrows]. destruct ao; [discriminate|]. unfold record.
    rewrite forallb_forall in Hrows.
    destruct (record_rows_done err3
                (fun s lab x =>
                   let '(st, labs, pats) := s in
                   match pat_get inst unify_st apply_st st cx x with
                   | Panic => Panic
                   | Done (st1, pm_pat, ty) => Done ((st1, labs ++ [lab], pats ++ [pm_pat]), ty)
                   end) (fun _ _ => True) (fun _ => I) (fun _ _ _ _ _ => I) (fun _ _ => I) rows)
      with (st := (st, @nil Lab, @nil Pat)) (acc := @nil (Lab * Ty)) as (st' & m & Hr & _).
    + induction IH as [|[l x] rs Hx _ IHrs]; constructor.
      * intros [[s labs] pats]. simpl in Hx |- *.
        specialize (Hx (Hrows _ (or_introl eq_refl)) s).
        destruct (pat_get _ _ _ s cx x) as [[[s1 pm] ty]|]; [|exfalso; apply Hx; reflexivity].
        eexists _, _. split; [reflexivity|exact I].
      * apply IHrs. intros y Hy. apply Hrows. now right.
    + rewrite Hr. destruct st' as [[? ?] ?]. discriminate.
  - apply andb_true_iff in Hp as [Hp Hw].
    specialize (IH Hp st).
    destruct (pat_get _ _ _ st cx p) as [[[st1 pm] got]|]; [|exfalso; apply IH; reflexivity].
    destruct (ty_get_done cx want Hw st1) as (st2 & w & Hw' & _). rewrite Hw'. discriminate.
  - exact (IH Hp st).
Qed.

Lemma pat_get_no_panic_witness :
  hpat_supported (HPat_Typed 0 (HPat_Wild 1) (HTy_Con [] (mkPath [] "int"))) = true /\
  pat_get (fun st ts => (st, Ty_Con [] Sym_INT)) (fun st _ _ => st) (fun _ t => t) (mkSSt [] 0 [])
    (mkCx (mkEnv [] [("int", Sym_INT)] [])) (HPat_Typed 0 (HPat_Wild 1) (HTy_Con [] (mkPath [] "int")))
  <> Panic.
Proof.
  split; [reflexivity|].
  exact (pat_get_no_panic (fun st ts => (st, Ty_Con [] Sym_INT)) (fun st _ _ => st) (fun _ t => t)
           (fun _ _ => I) (HPat_Typed 0 (HPat_Wild 1) (HTy_Con [] (mkPath [] "int"))) eq_refl
           (mkSSt [] 0 []) (mkCx (mkEnv [] [("int", Sym_INT)] []))).
Defined.

Lemma Lab_eqb_true (a b : Lab) : Lab_eqb a b = true -> a = b.
Proof.
  destruct a as [x|x], b as [y|y]; simpl; intros H; try discriminate.
  - apply String.eqb_eq in H. now subst.
  - apply Nat.eqb_eq in H. now subst.
Qed.

Lemma Lab_eqb_refl (a : Lab) : Lab_eqb a a = true.
Proof. destruct a; simpl; [apply String.eqb_refl|apply Nat.eqb_refl]. Qed.

Lemma btree_insert_keys (l : Lab) (t : Ty) (m : list (Lab * Ty)) :
  ~ In l (map fst m) -> Permutation (map fst (btree_insert l t m)) (l :: map fst m).
Proof.
  induction m as [|[l' t'] m IH]; intros Hn; simpl; [reflexivity|].
  destruct (Lab_eqb l l') eqn:E.
  - apply Lab_eqb_true in E. subst l'. exfalso. apply Hn. now left.
  - destruct (Lab_ltb l l'); [reflexivity|].
    simpl. rewrite IH by (intros H; apply Hn; now right). apply perm_swap.
Qed.

(** The row type [util::record] builds holds each label of the rows once,
    and no other label. *)
Lemma record_rows_keys {S X : Type} (s_err : S -> SError -> S) (f : S -> Lab -> X -> Ret (S * Ty))
    (rows : list (Lab * X)) :
  forall st acc st' m,
  record_rows s_err f st rows acc = Done (st', m) ->
  NoDup (map fst acc) ->
  NoDup (map fst m) /\ (forall k, In k (map fst m) <-> In k (map fst acc) \/ In k (map fst rows)).
Proof.
  induction rows as [|[lab x] rows IH]; intros st acc st' m H Hnd; simpl in H.
  - injection H as <- <-. split; [exact Hnd|]. intros k. simpl. tauto.
  - destruct (f st lab x) as [[st1 t]|]; [|discriminate].
    destruct (existsb (fun e => Lab_eqb lab (fst e)) acc) eqn:E.
    + destruct (IH _ _ _ _ H Hnd) as [Hnd' Hk]. split; [exact Hnd'|].
      intros k. rewrite Hk. simpl.
      apply existsb_exists in E. destruct E as ([l' t'] & Hin & Hq).
      apply Lab_eqb_true in Hq. simpl in Hq. subst l'.
      assert (In lab (map fst acc)) by (apply (in_map fst) in Hin; exact Hin).
      split; [tauto|intros [H1|[<-|H1]]; tauto].
    + assert (Hn : ~ In lab (map fst acc)).
      { intros Hin. apply in_map_iff in Hin. destruct Hin as ([l' t'] & Hq & Hin). simpl in Hq. subst l'.
        assert (existsb (fun e => Lab_eqb lab (fst e)) acc = true)
          by (apply existsb_exists; exists (lab, t'); split; [exact Hin|apply Lab_eqb_refl]).
        congruence. }
      pose proof (btree_insert_keys lab t acc Hn) as Hp.
      assert (Hnd1 : NoDup (map fst (btree_insert lab t acc))).
      { apply (Permutation_NoDup (Permutation_sym Hp)). constructor; assumption. }
      destruct (IH _ _ _ _ H Hnd1) as [Hnd' Hk]. split; [exact Hnd'|].
      intros k. rewrite Hk. split.
      * intros [H1|H1]; [|simpl; tauto].
        apply (Permutation_in _ Hp) in H1. simpl in H1 |- *. tauto.
      * simpl. intros [H1|[<-|H1]].
        -- left. apply (Permutation_in _ (Permutation_sym Hp)). now right.
        -- left. apply (Permutation_in _ (Permutation_sym Hp)). now left.
        -- now right.
Qed.

Lemma pat_record_loop (instantiate : SSt -> TyScheme -> SSt * Ty) (unify_st : SSt -> Ty -> Ty -> SSt)
    (apply_st : Subst -> Ty -> Ty) (cx : Cx) (rows : list (Lab * HPat)) :
  forall st labs pats acc st' labs' pats' m,
  record_rows err3
    (fun s lab x =>
       let '(st, labs, pats) := s in
       match pat_get instantiate unify_st apply_st st cx x with
       | Panic => Panic
       | Done (st1, pm_pat, ty) => Done ((st1, labs ++ [lab], pats ++ [pm_pat]), ty)
       end) (st, labs, pats) rows acc = Done ((st', labs', pats'), m) ->
  labs' = labs ++ map fst rows /\ exists ps, pats' = pats ++ ps /\ length ps = length rows.
Proof.
  induction rows as [|[lab x] rows IH]; intros st labs pats acc st' labs' pats' m H; cbn [record_rows] in H.
  - injection H as <- <- <- _. split; [now rewrite app_nil_r|]. exists []. now rewrite app_nil_r.
  - destruct (pat_get _ _ _ st cx x) as [[[st1 pm] ty]|]; [|discriminate].
    destruct (existsb _ acc); cbn [err3] in H;
      destruct (IH _ _ _ _ _ _ _ _ H) as (Hl & ps & Hp & Hlen);
      (split; [rewrite Hl, <- app_assoc; reflexivity|]);
      exists (pm :: ps); (split; [rewrite Hp, <- app_assoc; reflexivity|simpl; congruence]).
Qed.

(** The pattern [pat::get] builds for a record pattern keeps every row,
    in the order written: its labels are the row labels, a repeated label
    included, and it has one subpattern per row; the row type it returns,
    by contrast, is a record type that holds each label of the rows
    exactly once. *)
Theorem pat_get_record_rows
    (instantiate : SSt -> TyScheme -> SSt * Ty) (unify_st : SSt -> Ty -> Ty -> SSt)
    (apply_st : Subst -> Ty -> Ty) (st : SSt) (cx : Cx) (idx : nat) (rows : list (Lab * HPat))
    (st' : SSt) (p : Pat) (t : Ty)
    (H : pat_get instantiate unify_st apply_st st cx (HPat_Record idx rows false) = Done (st', p, t)) :
  (exists pats, p = Pat_con (Con_Record (map fst rows)) pats idx /\ length pats = length rows) /\
  (exists m, t = Ty_Record m /\ NoDup (map fst m) /\
             forall lab, In lab (map fst m) <-> In lab (map fst rows)).
Proof.
  cbn [pat_get] in H. unfold record in H.
  match type of H with
  | context [record_rows ?e ?f ?s ?r ?a] =>
      destruct (record_rows e f s r a) as [[[[st1 labs] pats] m]|] eqn:R; [|discriminate];
      destruct (record_rows_keys e f r s a _ _ R (NoDup_nil _)) as [Hnd Hk]
  end.
  injection H as <- <- <-.
  destruct (pat_record_loop instantiate unify_st apply_st cx rows st [] [] [] st1 labs pats m R)
    as (Hl & ps & Hp & Hlen).
  split.
  - exists pats. rewrite Hl, Hp. split; [reflexivity|]. exact Hlen.
  - exists m. split; [reflexivity|]. split; [exact Hnd|].
    intros lab. rewrite Hk. simpl. tauto.
Qed.

Lemma pat_get_record_rows_witness :
  pat_get (fun st ts => (st, ts_ty ts)) (fun st _ _ => st) (fun _ t => t) (mkSSt [] 0 []) (mkCx (mkEnv [] [] []))
    (HPat_Record 0 [(Lab_Name "a", HPat_Wild 1); (Lab_Name "a", HPat_Wild 2)] false)
  = Done (mkSSt [SE_DuplicateLab (Lab_Name "a")] 2 [],
          Pat_con (Con_Record [Lab_Name "a"; Lab_Name "a"]) [Pat_zero Con_Any 1; Pat_zero Con_Any 2] 0,
          Ty_Record [(Lab_Name "a", Ty_MetaVar (mkMetaTyVar 0 false))]) /\
  (exists pats, Pat_con (Con_Record [Lab_Name "a"; Lab_Name "a"]) [Pat_zero Con_Any 1; Pat_zero Con_Any 2] 0 =
                Pat_con (Con_Record (map fst [(Lab_Name "a", HPat_Wild 1); (Lab_Name "a", HPat_Wild 2)])) pats 0 /\
                length pats = 2) /\
  (exists m, Ty_Record [(Lab_Name "a", Ty_MetaVar (mkMetaTyVar 0 false))] = Ty_Record m /\
             NoDup (map fst m) /\
             forall lab, In lab (map fst m) <->
                         In lab (map fst [(Lab_Name "a", HPat_Wild 1); (Lab_Name "a", HPat_Wild 2)])).
Proof.
  split; [reflexivity|].
  exact (pat_get_record_rows (fun st ts => (st, ts_ty ts)) (fun st _ _ => st) (fun _ t => t) (mkSSt [] 0 [])
           (mkCx (mkEnv [] [] [])) 0 [(Lab_Name "a", HPat_Wild 1); (Lab_Name "a", HPat_Wild 2)]
           (mkSSt [SE_DuplicateLab (Lab_Name "a")] 2 [])
           (Pat_con (Con_Record [Lab_Name "a"; Lab_Name "a"]) [Pat_zero Con_Any 1; Pat_zero Con_Any 2] 0)
           (Ty_Record [(Lab_Name "a", Ty_MetaVar (mkMetaTyVar 0 false))]) eq_refl).
Defined.

(** * Further properties of the core checker ([core/src/statics/ck/dec.rs]) *)

Module CoreMore.
Import Core CoreFacts.

(** The loop of the [Exp::Tuple] arm. *)
Lemma tuple_loop (ops : Ops) (cx : Cx) (exps : list LExp) :
  forall st ty_rows idx st' res,
  for_each st exps (ty_rows, idx) (fun st '(ty_rows, idx) exp =>
    let! (st, ty) := ck_exp ops cx st exp in
    let lab := op_tuple_lab ops idx in
    COk st (ty_rows ++ [(lab, ty)], S idx)) = COk st' res ->
  exists tys, fst res = ty_rows ++ combine (map (op_tuple_lab ops) (seq idx (length exps))) tys /\
              length tys = length exps /\ snd res = idx + length exps.
Proof.
  induction exps as [|e exps IH]; intros st ty_rows idx st' res H.
  - rewrite for_each_nil in H. injection H as <- <-. exists []. simpl. rewrite app_nil_r. auto.
  - rewrite for_each_cons in H.
    destruct (ck_exp ops cx st e) as [st1 ty| |]; cbn [obind] in H; try discriminate.
    destruct (IH _ _ _ _ _ H) as (tys & H1 & H2 & H3).
    exists (ty :: tys). simpl. rewrite H1, <- app_assoc. simpl. repeat split; auto. lia.
Qed.

(** A tuple expression [(e0, ..., en-1)] that checks has the record type
    whose labels are [tuple_lab 0], ..., [tuple_lab (n-1)] in this order,
    with one type per component; the empty tuple is the empty record. *)
Theorem tuple_type_labels (ops : Ops) (cx : Cx) (st : State) (l : Loc) (exps : list LExp)
    (st' : State) (t : Ty)
    (H : ck_exp ops cx st (LExp_at l (Exp_Tuple exps)) = COk st' t) :
  exists tys, t = Record (combine (map (op_tuple_lab ops) (seq 0 (length exps))) tys) /\
              length tys = length exps.
Proof.
  cbn [ck_exp] in H.
  match type of H with
  | obind (for_each _ _ _ ?b) _ = _ =>
      destruct (for_each st exps ([], 0) b) as [st1 res| |] eqn:F; cbn [obind] in H; try discriminate
  end.
  destruct (tuple_loop ops cx exps st [] 0 st1 res F) as (tys & H1 & H2 & _).
  injection H as <- <-. exists tys. rewrite H1. auto.
Qed.

Lemma tuple_type_labels_witness :
  ck_exp ops_ex ex_cx ex_st
    (LExp_at (0, 9) (Exp_Tuple [LExp_at (1, 2) (Exp_DecInt 1); LExp_at (4, 8) (Exp_String "s")]))
  = COk ex_st (Record [(Label_Num 1, Ty_INT); (Label_Num 2, Ty_STRING)]) /\
  exists tys, Record [(Label_Num 1, Ty_INT); (Label_Num 2, Ty_STRING)] =
              Record (combine (map (op_tuple_lab ops_ex) (seq 0 2)) tys) /\ length tys = 2.
Proof.
  split; [vm_compute; reflexivity|].
  exact (tuple_type_labels ops_ex ex_cx ex_st (0, 9)
           [LExp_at (1, 2) (Exp_DecInt 1); LExp_at (4, 8) (Exp_String "s")]
           ex_st (Record [(Label_Num 1, Ty_INT); (Label_Num 2, Ty_STRING)]) eq_refl).
Defined.

Lemma ck_binding_iff (l : Loc) (name : StrRef) :
  ck_binding (mkLocated l name) = inl (l, ForbiddenBinding name) <->
  In name [StrRef_TRUE; StrRef_FALSE; StrRef_NIL; StrRef_CONS; StrRef_REF].
Proof.
  unfold ck_binding. cbn [val loc].
  destruct (existsb (String.eqb name) _) eqn:E.
  - apply existsb_exists in E. destruct E as (x & Hx & Hq).
    apply String.eqb_eq in Hq. subst x. split; auto.
  - split; [discriminate|]. intros Hin.
    assert (existsb (String.eqb name) [StrRef_TRUE; StrRef_FALSE; StrRef_NIL; StrRef_CONS; StrRef_REF] = true)
      as E' by (apply existsb_exists; exists name; split; [exact Hin | apply String.eqb_refl]).
    congruence.
Qed.

(** The [ck_binding] loop over the names a [val] pattern binds. *)
Lemma binding_loop_forbidden (st : State) (lp : Loc) (other : ValEnv) (name : StrRef) (vi : ValInfo) :
  In (name, vi) other ->
  In name [StrRef_TRUE; StrRef_FALSE; StrRef_NIL; StrRef_CONS; StrRef_REF] ->
  exists bad,
    In bad (map fst other) /\
    In bad [StrRef_TRUE; StrRef_FALSE; StrRef_NIL; StrRef_CONS; StrRef_REF] /\
    for_each st other tt (fun st _ '(name, _) => lift st (ck_binding (mkLocated lp name)))
    = CErr lp (ForbiddenBinding bad).
Proof.
  revert st. induction other as [|[n v] other IH]; intros st Hin Hbad; [destruct Hin|].
  rewrite for_each_cons.
  destruct (ck_binding (mkLocated lp n)) as [[l' e']|[]] eqn:B.
  - assert (B' : ck_binding (mkLocated lp n) = inl (lp, ForbiddenBinding n)).
    { unfold ck_binding in *. cbn [val loc] in *. destruct (existsb _ _); congruence. }
    rewrite B in B'. injection B' as -> ->.
    exists n. split; [now left|]. split.
    + apply (proj1 (ck_binding_iff lp n)). exact B.
    + reflexivity.
  - destruct Hin as [Hin|Hin].
    + injection Hin as -> ->. exfalso.
      apply (proj2 (ck_binding_iff lp name)) in Hbad. congruence.
    + destruct (IH st Hin Hbad) as (bad & H1 & H2 & H3).
      exists bad. split; [now right|]. split; [exact H2|]. exact H3.
Qed.
(** In a [val] declaration without explicit type variables, a
    non-recursive binding whose pattern binds one of the names [true],
    [false], [nil], [::] and [ref] is rejected with [ForbiddenBinding] of
    such a bound name, at the pattern, before its expression is checked,
    provided the bindings before it check (as a [val] declaration of their
    own, from the same state): whatever the expression and the bindings
    after it. *)
Theorem val_forbidden_binding (ops : Ops) (cx : Cx) (st : State) (l lp : Loc)
    (pre : list (bool * LPat * LExp)) (pat_e : AstPat) (e : LExp) (rest : list (bool * LPat * LExp))
    (st0 : State) (env0 : Env) (st1 : State) (other : ValEnv) (pat_ty : Ty)
    (p : Pat) (name : StrRef) (vi : ValInfo)
    (Hpre : ck ops cx st (LDec_at l (Dec_Val [] pre)) = COk st0 env0)
    (Hpat : op_pat_ck ops cx st0 (mkLocated lp pat_e) = COk st1 (other, pat_ty, p))
    (Hin : In (name, vi) other)
    (Hbad : In name [StrRef_TRUE; StrRef_FALSE; StrRef_NIL; StrRef_CONS; StrRef_REF]) :
  exists bad,
    In bad (map fst other) /\
    In bad [StrRef_TRUE; StrRef_FALSE; StrRef_NIL; StrRef_CONS; StrRef_REF] /\
    ck ops cx st (LDec_at l (Dec_Val [] (pre ++ (false, mkLocated lp pat_e, e) :: rest))) =
    CErr lp (ForbiddenBinding bad).
Proof.
  destruct (binding_loop_forbidden st1 lp other name vi Hin Hbad) as (bad & H1 & H2 & H3).
  exists bad. split; [exact H1|]. split; [exact H2|].
  cbn [ck] in Hpre |- *.
  match goal with
  | |- obind (for_each _ _ _ ?b) _ = _ =>
      rewrite for_each_app;
      destruct (for_each st pre [] b) as [s0 ve| |] eqn:F; cbn [obind] in Hpre |- *;
      try discriminate
  end.
  injection Hpre as <- _.
  rewrite for_each_cons. cbn [obind]. rewrite Hpat. cbn [obind loc].
  rewrite H3. reflexivity.
Qed.

Lemma val_forbidden_binding_witness :
  ck ops_ex ex_cx ex_st
    (LDec_at (0, 21) (Dec_Val []
       [(false, mkLocated (4, 5) (APat_LongVid (mkLongVid [] (mkLocated (4, 5) "x"))),
         LExp_at (8, 9) (Exp_DecInt 1));
        (false, mkLocated (14, 17) (APat_LongVid (mkLongVid [] (mkLocated (14, 17) "nil"))),
         LExp_at (20, 21) (Exp_DecInt 3))]))
  = CErr (14, 17) (ForbiddenBinding "nil") /\
  exists bad,
    In bad (map fst [("nil", ValInfo_val (TyScheme_mono (Var (mkTyVar 1 false))))]) /\
    In bad [StrRef_TRUE; StrRef_FALSE; StrRef_NIL; StrRef_CONS; StrRef_REF] /\
    ck ops_ex ex_cx ex_st
      (LDec_at (0, 21) (Dec_Val []
         ([(false, mkLocated (4, 5) (APat_LongVid (mkLongVid [] (mkLocated (4, 5) "x"))),
            LExp_at (8, 9) (Exp_DecInt 1))] ++
          (false, mkLocated (14, 17) (APat_LongVid (mkLongVid [] (mkLocated (14, 17) "nil"))),
           LExp_at (20, 21) (Exp_DecInt 3)) :: [])))
    = CErr (14, 17) (ForbiddenBinding bad).
Proof.
  split; [vm_compute; reflexivity|].
  refine (val_forbidden_binding ops_ex ex_cx ex_st (0, 21) (14, 17)
           [(false, mkLocated (4, 5) (APat_LongVid (mkLongVid [] (mkLocated (4, 5) "x"))),
             LExp_at (8, 9) (Exp_DecInt 1))]
           (APat_LongVid (mkLongVid [] (mkLocated (14, 17) "nil"))) (LExp_at (20, 21) (Exp_DecInt 3)) []
           (mkState [(0, Ty_INT)] 1 10 (st_datatypes ex_st))
           (Env_of_val_env [("x", ValInfo_val (TyScheme_mono Ty_INT))])
           (mkState [(0, Ty_INT)] 2 10 (st_datatypes ex_st))
           [("nil", ValInfo_val (TyScheme_mono (Var (mkTyVar 1 false))))]
           (Var (mkTyVar 1 false)) Pat_Anything "nil" (ValInfo_val (TyScheme_mono (Var (mkTyVar 1 false))))
           _ _ (or_introl eq_refl) (or_intror (or_intror (or_introl eq_refl)))).
  - vm_compute. reflexivity.
  - vm_compute. reflexivity.
Defined.
(** A [datatype] declaration with no [withtype] bindings whose first
    datatype binding has no type parameters, names a type [t] not yet
    bound in the context, gets a symbol not yet in the datatype table, and
    has a first constructor named [true], [false], [nil], [::] or [ref] is
    rejected with [ForbiddenBinding] at that constructor, whatever its
    argument, the constructors after it and the datatype bindings after
    it: [ck_binding] is called on the constructor name. *)
Theorem datatype_forbidden_ctor (ops : Ops) (cx : Cx) (st : State) (l : Loc)
    (ty_con vid : Located StrRef) (arg : option LTy) (ctors : list (Located StrRef * option LTy))
    (dats : list (list (Located StrRef) * Located StrRef * list (Located StrRef * option LTy)))
    (Hnew : map_get (val ty_con) (env_ty_env (cx_env cx)) = None)
    (Hfresh : existsb (fun e => Nat.eqb (csym_idx (fst e)) (st_next_sym st)) (st_datatypes st) = false)
    (Hbad : In (val vid) [StrRef_TRUE; StrRef_FALSE; StrRef_NIL; StrRef_CONS; StrRef_REF]) :
  ck ops cx st (LDec_at l (Dec_Datatype (([], ty_con, (vid, arg) :: ctors) :: dats) [])) =
  CErr (loc vid) (ForbiddenBinding (val vid)).
Proof.
  destruct vid as [lv nv]. cbn [val loc] in *.
  apply (proj2 (ck_binding_iff lv nv)) in Hbad.
  cbn [ck]. rewrite for_each_cons. cbn [new_sym obind].
  unfold env_ins at 1. rewrite Hnew.
  cbn [lift obind fst snd map_insert map_get assoc_get filter dt_insert st_datatypes csym_idx].
  rewrite Hfresh. rewrite for_each_cons, Hbad. reflexivity.
Qed.

Lemma datatype_forbidden_ctor_witness :
  ck ops_ex ex_cx ex_st
    (LDec_at (0, 20) (Dec_Datatype [([], mkLocated (9, 10) "t", [(mkLocated (13, 16) "nil", None)])] []))
  = CErr (13, 16) (ForbiddenBinding "nil").
Proof.
  exact (datatype_forbidden_ctor ops_ex ex_cx ex_st (0, 20) (mkLocated (9, 10) "t")
           (mkLocated (13, 16) "nil") None [] [] eq_refl eq_refl
           (or_intror (or_intror (or_introl eq_refl)))).
Defined.

(** [fun_infos_to_ve] gives each function of a [fun] declaration the
    curried type [a1 -> ... -> an -> r] of its argument type variables,
    in order, and its result type variable, as a plain value ([Val])
    with no bound type variable, keeping the names and their order. *)
Theorem fun_infos_curried (fun_infos : Map FunInfo) :
  fun_infos_to_ve fun_infos =
  map (fun e => (fst e, mkValInfo
                   (mkTyScheme [] (fold_right (fun tv ac => Arrow (Var tv) ac)
                                              (Var (fi_ret (snd e))) (fi_args (snd e))))
                   IdStatus_Val)) fun_infos.
Proof.
  unfold fun_infos_to_ve. apply map_ext. intros [name fi]. cbn [fst snd].
  assert (E : forall xs i, fold_left (fun ac tv => Arrow (Var tv) ac) (rev xs) i =
                           fold_right (fun tv ac => Arrow (Var tv) ac) i xs).
  { induction xs as [|x xs IH]; intros i; [reflexivity|].
    simpl. rewrite fold_left_app, IH. reflexivity. }
  rewrite E. reflexivity.
Qed.
Lemma map_get_insert {A : Type} (k k' : StrRef) (v : A) (m : Map A) :
  map_get k (fst (map_insert k' v m)) = if String.eqb k k' then Some v else map_get k m.
Proof.
  unfold map_insert, map_get. cbn [fst assoc_get].
  destruct (String.eqb k k') eqn:E; [reflexivity|].
  induction m as [|[k2 v2] m IH]; [reflexivity|].
  cbn [filter fst]. destruct (String.eqb k' k2) eqn:E2; cbn [negb assoc_get].
  - apply String.eqb_eq in E2. subst k2. rewrite E. exact IH.
  - cbn [assoc_get]. destruct (String.eqb k k2); [reflexivity|exact IH].
Qed.

(** The loop of the [Dec::Type] arm. *)
Section TypeLoop.
Variable ops : Ops.
Variable cx : Cx.
Variable dloc : Loc.
Variable body : State -> TyEnv -> list (Located StrRef) * Located StrRef * LTy -> Outcome TyEnv.
Hypothesis Hbody : forall st ty_env tvs c t,
  body st ty_env (tvs, c, t) =
  match tvs with
  | _ :: _ => err dloc Todo
  | [] =>
      obind (op_ty_ck ops cx st t) (fun st ty =>
        let '(ty_env, prev) := map_insert (val c) (TyInfo_Alias (TyScheme_mono ty)) ty_env in
        match prev with
        | Some _ => err (loc c) (Redefined (val c))
        | None => COk st ty_env
        end)
  end.

Definition bind_name (b : list (Located StrRef) * Located StrRef * LTy) : StrRef := val (snd (fst b)).

Lemma type_loop_keys (binds : list (list (Located StrRef) * Located StrRef * LTy)) :
  forall st ty_env st' ty_env',
  for_each st binds ty_env body = COk st' ty_env' ->
  forall k, In k (map bind_name binds) \/ map_get k ty_env <> None -> map_get k ty_env' <> None.
Proof.
  induction binds as [|[[tvs c] t] binds IH]; intros st ty_env st' ty_env' H k Hk.
  - rewrite for_each_nil in H. injection H as <- <-. destruct Hk as [[]|Hk]; exact Hk.
  - rewrite for_each_cons, Hbody in H.
    destruct tvs as [|tv tvs]; [|discriminate].
    destruct (op_ty_ck ops cx st t) as [st1 ty| |]; cbn [obind] in H; try discriminate.
    destruct (map_insert (val c) (TyInfo_Alias (TyScheme_mono ty)) ty_env) as [env1 prev] eqn:Ei.
    destruct prev; cbn [obind] in H; [discriminate|].
    assert (Hget : forall k, map_get k env1 =
                   if String.eqb k (val c) then Some (TyInfo_Alias (TyScheme_mono ty)) else map_get k ty_env).
    { intros k'. rewrite <- map_get_insert, Ei. reflexivity. }
    apply (IH _ _ _ _ H). destruct Hk as [[Hk|Hk]|Hk].
    + right. cbn [bind_name fst snd] in Hk. subst k. rewrite Hget, String.eqb_refl. discriminate.
    + left. exact Hk.
    + right. rewrite Hget. destruct (String.eqb k (val c)); [discriminate|exact Hk].
Qed.
End TypeLoop.

(** A [type] declaration that binds the same name twice is rejected with
    [Redefined] at the second binding, when the bindings before it check
    (as a [type] declaration of their own, from the same state) and the
    second binding has no type parameters and its type checks in the state
    they leave: whatever the bindings after it. *)
Theorem type_redefined (ops : Ops) (cx : Cx) (st : State) (l : Loc)
    (pre : list (list (Located StrRef) * Located StrRef * LTy)) (c : Located StrRef) (t : LTy)
    (post : list (list (Located StrRef) * Located StrRef * LTy))
    (st1 : State) (env1 : Env) (st2 : State) (ty : Ty)
    (Hpre : ck ops cx st (LDec_at l (Dec_Type pre)) = COk st1 env1)
    (Hin : In (val c) (map bind_name pre))
    (Hc : op_ty_ck ops cx st1 t = COk st2 ty) :
  ck ops cx st (LDec_at l (Dec_Type (pre ++ ([], c, t) :: post))) = CErr (loc c) (Redefined (val c)).
Proof.
  cbn [ck] in Hpre |- *.
  match goal with
  | |- obind (for_each _ _ _ ?b) _ = _ =>
      rewrite for_each_app;
      destruct (for_each st pre [] b) as [s1 te| |] eqn:F; cbn [obind] in Hpre |- *;
      try discriminate;
      pose proof (type_loop_keys ops cx l b ltac:(intros; reflexivity) pre st [] s1 te F (val c)
                    (or_introl Hin)) as Hk
  end.
  injection Hpre as <- _.
  rewrite for_each_cons. cbn [obind]. rewrite Hc. cbn [obind].
  unfold map_insert at 1.
  destruct (map_get (val c) te) eqn:E.
  - reflexivity.
  - exfalso. exact (Hk eq_refl).
Qed.
Lemma type_redefined_witness :
  ck ops_ex ex_cx ex_st
    (LDec_at (0, 24)
       (Dec_Type [([], mkLocated (5, 6) "t", mkLocated (9, 12) (ATy_Ctor [] (mkLongVid [] (mkLocated (9, 12) "int"))));
                  ([], mkLocated (18, 19) "t", mkLocated (21, 24) (ATy_Ctor [] (mkLongVid [] (mkLocated (21, 24) "int"))))]))
  = CErr (18, 19) (Redefined "t").
Proof.
  refine (type_redefined ops_ex ex_cx ex_st (0, 24)
           [([], mkLocated (5, 6) "t", mkLocated (9, 12) (ATy_Ctor [] (mkLongVid [] (mkLocated (9, 12) "int"))))]
           (mkLocated (18, 19) "t") (mkLocated (21, 24) (ATy_Ctor [] (mkLongVid [] (mkLocated (21, 24) "int")))) []
           ex_st (Env_of_ty_env [("t", TyInfo_Alias (TyScheme_mono Ty_INT))]) ex_st Ty_INT
           _ _ _).
  - vm_compute. reflexivity.
  - left. reflexivity.
  - vm_compute. reflexivity.
Defined.
End CoreMore.
